(** * Gemini Gallery: the gallery state, its handlers and the AI service wrapper

    A shallow embedding of [App.tsx] (the state container), [MediaModal.tsx]
    (the modal that talks to the AI service), [types.ts] and
    [services/geminiService.ts].

    Conventions.
    - A JavaScript string is a Rocq [string]; only equality, [startsWith],
      [includes], [trim] and [toLowerCase] are ever applied to one.  The last
      two depend on Unicode tables of the host, so the development is
      parametric in them (class [StringBuiltins]).
    - A React state variable is a record field; a setter is a function on the
      record.  A handler takes the render snapshot [c] it closed over and the
      state [s] its queued updates are applied to; a handler that runs without
      an [await] has [c = s].
    - Everything the host decides (uuids, the clock, object URLs, the outcome
      of [fetch], of [FileReader] and of the remote model) is read from a
      [World], threaded through the monad [M]. *)

From Stdlib Require Import String Ascii List Bool ZArith Arith Lia.
Import ListNotations.
Local Open Scope string_scope.
Local Open Scope list_scope.

(** ** Strings *)

(** [s.startsWith(p)]. *)
Definition startsWith (s p : string) : bool := String.prefix p s.

(** [s.includes(q)]: [q] occurs in [s] at some position. *)
Fixpoint includes (s q : string) : bool :=
  String.prefix q s ||
  match s with
  | EmptyString => false
  | String _ s' => includes s' q
  end.

(** Truthiness of a string: the empty string is falsy. *)
Definition truthy (s : string) : bool :=
  match s with EmptyString => false | String _ _ => true end.

(** [a || b] where [a] may be [undefined]. *)
Definition or_else (a : option string) (b : string) : string :=
  match a with
  | Some s => if truthy s then s else b
  | None => b
  end.

(** [s.split(',')[1]]: the text between the first and the second comma,
    [undefined] when [s] has no comma. *)
Fixpoint upto_comma (s : string) : string :=
  match s with
  | EmptyString => EmptyString
  | String ch s' => if Ascii.eqb ch "," then EmptyString else String ch (upto_comma s')
  end.

Fixpoint split_comma_1 (s : string) : option string :=
  match s with
  | EmptyString => None
  | String ch s' => if Ascii.eqb ch "," then Some (upto_comma s') else split_comma_1 s'
  end.

(** The two host functions on strings that the code calls and that depend on
    Unicode data. *)
Class StringBuiltins := {
  trim : string -> string;
  toLowerCase : string -> string;
  toLowerCase_empty : toLowerCase EmptyString = EmptyString
}.

(** An instance for ASCII text, used to run the model. *)
Definition is_space (ch : ascii) : bool :=
  let n := nat_of_ascii ch in
  Nat.eqb n 32 || (Nat.leb 9 n && Nat.leb n 13).

Fixpoint trim_start (s : string) : string :=
  match s with
  | EmptyString => EmptyString
  | String ch s' => if is_space ch then trim_start s' else s
  end.

Fixpoint trim_end (s : string) : string :=
  match s with
  | EmptyString => EmptyString
  | String ch s' =>
      match trim_end s' with
      | EmptyString => if is_space ch then EmptyString else String ch EmptyString
      | t => String ch t
      end
  end.

Definition lower_ascii (ch : ascii) : ascii :=
  let n := nat_of_ascii ch in
  if Nat.leb 65 n && Nat.leb n 90 then ascii_of_nat (n + 32) else ch.

Fixpoint map_string (f : ascii -> ascii) (s : string) : string :=
  match s with
  | EmptyString => EmptyString
  | String ch s' => String (f ch) (map_string f s')
  end.

#[export] Instance ascii_builtins : StringBuiltins := {
  trim := fun s => trim_end (trim_start s);
  toLowerCase := map_string lower_ascii;
  toLowerCase_empty := eq_refl
}.

(** ** types.ts *)

Inductive MediaType := image | video.

Definition MediaType_eqb (a b : MediaType) : bool :=
  match a, b with
  | image, image | video, video => true
  | _, _ => false
  end.

(** A [Blob]: its MIME type and its bytes. *)
Record Blob := { blob_type : string; blob_bytes : string }.

(** A [File] is a [Blob] with a name. *)
Record File := { file_name : string; file_type : string; file_bytes : string }.

Record MediaItem := {
  id : string;
  type : MediaType;
  url : string;
  file : File;
  thumbnailUrl : option string;
  name : string;
  timestamp : Z;
  aiDescription : option string;
  isGenerated : option bool;
  folder : string
}.

(** [Partial<MediaItem>]: a key is either absent ([None]) or present with a
    value of the field's type. *)
Record PartialMediaItem := {
  p_id : option string;
  p_type : option MediaType;
  p_url : option string;
  p_file : option File;
  p_thumbnailUrl : option (option string);
  p_name : option string;
  p_timestamp : option Z;
  p_aiDescription : option (option string);
  p_isGenerated : option (option bool);
  p_folder : option string
}.

Definition over {A} (old : A) (new : option A) : A :=
  match new with Some v => v | None => old end.

(** [{ ...item, ...updates }]. *)
Definition spread (item : MediaItem) (updates : PartialMediaItem) : MediaItem :=
  {| id := over (id item) (p_id updates);
     type := over (type item) (p_type updates);
     url := over (url item) (p_url updates);
     file := over (file item) (p_file updates);
     thumbnailUrl := over (thumbnailUrl item) (p_thumbnailUrl updates);
     name := over (name item) (p_name updates);
     timestamp := over (timestamp item) (p_timestamp updates);
     aiDescription := over (aiDescription item) (p_aiDescription updates);
     isGenerated := over (isGenerated item) (p_isGenerated updates);
     folder := over (folder item) (p_folder updates) |}.

Inductive AppStatus := IDLE | LOADING | PROCESSING | ERROR | SUCCESS.

(** ** The host *)

(** A thrown value. *)
Record JSError := { message : string }.

(** What [generateContent] sends and receives. *)
Record InlineData := { mimeType : option string; data : option string }.
Record Part := { text : option string; inlineData : option InlineData }.
Record Content := { parts : option (list Part) }.
Record Candidate := { content : option Content }.
Record GenerateContentResponse := {
  candidates : option (list Candidate);
  response_text : option string
}.
Record GenerateContentRequest := { model : string; contents : list Part }.

Record World := {
  tick : nat;
  uuid_at : nat -> string;
  now_at : nat -> Z;
  objectURL_at : nat -> string;
  fetch_blob : string -> JSError + Blob;
  readAsDataURL : File -> JSError + string;
  calls : nat;
  generateContent_at : nat -> GenerateContentRequest -> JSError + GenerateContentResponse
}.

Definition M (A : Type) : Type := World -> A * World.

Definition ret {A} (a : A) : M A := fun w => (a, w).

Definition bind {A B} (m : M A) (k : A -> M B) : M B :=
  fun w => let (a, w') := m w in k a w'.

Notation "x <- m ;; k" := (bind m (fun x => k))
  (at level 61, m at next level, right associativity).

Definition next_tick (w : World) : World :=
  {| tick := S (tick w); uuid_at := uuid_at w; now_at := now_at w;
     objectURL_at := objectURL_at w; fetch_blob := fetch_blob w;
     readAsDataURL := readAsDataURL w; calls := calls w;
     generateContent_at := generateContent_at w |}.

Definition next_call (w : World) : World :=
  {| tick := tick w; uuid_at := uuid_at w; now_at := now_at w;
     objectURL_at := objectURL_at w; fetch_blob := fetch_blob w;
     readAsDataURL := readAsDataURL w; calls := S (calls w);
     generateContent_at := generateContent_at w |}.

(** [uuidv4()]. *)
Definition uuidv4 : M string := fun w => (uuid_at w (tick w), next_tick w).

(** [Date.now()]. *)
Definition Date_now : M Z := fun w => (now_at w (tick w), next_tick w).

(** [URL.createObjectURL(_)]. *)
Definition createObjectURL : M string :=
  fun w => (objectURL_at w (tick w), next_tick w).

(** ** App.tsx: state *)

Inductive TypeFilter := all | only (t : MediaType).

Record App := {
  mediaItems : list MediaItem;
  selectedItem : option MediaItem;
  dragActive : bool;
  folders : list string;
  currentFolder : string;
  searchQuery : string;
  typeFilter : TypeFilter;
  isUploading : bool;
  newFolderInput : string;
  showNewFolderInput : bool
}.

Definition DEFAULT_FOLDER : string := "Genel".

(** The state of the first render. *)
Definition initial : App :=
  {| mediaItems := [];
     selectedItem := None;
     dragActive := false;
     folders := [DEFAULT_FOLDER; "Favoriler"; "İş"; "Tatil"];
     currentFolder := DEFAULT_FOLDER;
     searchQuery := EmptyString;
     typeFilter := all;
     isUploading := false;
     newFolderInput := EmptyString;
     showNewFolderInput := false |}.

(** Setters.  [setMediaItems] and [setSelectedItem] are only ever called with
    an updater function. *)
Definition setMediaItems (f : list MediaItem -> list MediaItem) (s : App) : App :=
  {| mediaItems := f (mediaItems s); selectedItem := selectedItem s;
     dragActive := dragActive s; folders := folders s;
     currentFolder := currentFolder s; searchQuery := searchQuery s;
     typeFilter := typeFilter s; isUploading := isUploading s;
     newFolderInput := newFolderInput s;
     showNewFolderInput := showNewFolderInput s |}.

Definition setSelectedItem (f : option MediaItem -> option MediaItem) (s : App) : App :=
  {| mediaItems := mediaItems s; selectedItem := f (selectedItem s);
     dragActive := dragActive s; folders := folders s;
     currentFolder := currentFolder s; searchQuery := searchQuery s;
     typeFilter := typeFilter s; isUploading := isUploading s;
     newFolderInput := newFolderInput s;
     showNewFolderInput := showNewFolderInput s |}.

Definition setDragActive (b : bool) (s : App) : App :=
  {| mediaItems := mediaItems s; selectedItem := selectedItem s;
     dragActive := b; folders := folders s;
     currentFolder := currentFolder s; searchQuery := searchQuery s;
     typeFilter := typeFilter s; isUploading := isUploading s;
     newFolderInput := newFolderInput s;
     showNewFolderInput := showNewFolderInput s |}.

Definition setFolders (l : list string) (s : App) : App :=
  {| mediaItems := mediaItems s; selectedItem := selectedItem s;
     dragActive := dragActive s; folders := l;
     currentFolder := currentFolder s; searchQuery := searchQuery s;
     typeFilter := typeFilter s; isUploading := isUploading s;
     newFolderInput := newFolderInput s;
     showNewFolderInput := showNewFolderInput s |}.

Definition setCurrentFolder (f : string) (s : App) : App :=
  {| mediaItems := mediaItems s; selectedItem := selectedItem s;
     dragActive := dragActive s; folders := folders s;
     currentFolder := f; searchQuery := searchQuery s;
     typeFilter := typeFilter s; isUploading := isUploading s;
     newFolderInput := newFolderInput s;
     showNewFolderInput := showNewFolderInput s |}.

Definition setSearchQuery (q : string) (s : App) : App :=
  {| mediaItems := mediaItems s; selectedItem := selectedItem s;
     dragActive := dragActive s; folders := folders s;
     currentFolder := currentFolder s; searchQuery := q;
     typeFilter := typeFilter s; isUploading := isUploading s;
     newFolderInput := newFolderInput s;
     showNewFolderInput := showNewFolderInput s |}.

Definition setTypeFilter (t : TypeFilter) (s : App) : App :=
  {| mediaItems := mediaItems s; selectedItem := selectedItem s;
     dragActive := dragActive s; folders := folders s;
     currentFolder := currentFolder s; searchQuery := searchQuery s;
     typeFilter := t; isUploading := isUploading s;
     newFolderInput := newFolderInput s;
     showNewFolderInput := showNewFolderInput s |}.

Definition setIsUploading (b : bool) (s : App) : App :=
  {| mediaItems := mediaItems s; selectedItem := selectedItem s;
     dragActive := dragActive s; folders := folders s;
     currentFolder := currentFolder s; searchQuery := searchQuery s;
     typeFilter := typeFilter s; isUploading := b;
     newFolderInput := newFolderInput s;
     showNewFolderInput := showNewFolderInput s |}.

Definition setNewFolderInput (v : string) (s : App) : App :=
  {| mediaItems := mediaItems s; selectedItem := selectedItem s;
     dragActive := dragActive s; folders := folders s;
     currentFolder := currentFolder s; searchQuery := searchQuery s;
     typeFilter := typeFilter s; isUploading := isUploading s;
     newFolderInput := v;
     showNewFolderInput := showNewFolderInput s |}.

Definition setShowNewFolderInput (b : bool) (s : App) : App :=
  {| mediaItems := mediaItems s; selectedItem := selectedItem s;
     dragActive := dragActive s; folders := folders s;
     currentFolder := currentFolder s; searchQuery := searchQuery s;
     typeFilter := typeFilter s; isUploading := isUploading s;
     newFolderInput := newFolderInput s;
     showNewFolderInput := b |}.

(** ** App.tsx: handlers *)

(** [getFileType]. *)
Definition getFileType (f : File) : option MediaType :=
  if startsWith (file_type f) "image/" then Some image
  else if startsWith (file_type f) "video/" then Some video
  else None.

(** The [forEach] of [handleFiles] that fills [newItems]; [currentFolder] is
    the one of the closure. *)
Fixpoint newItemsOf (currentFolder : string) (files : list File) : M (list MediaItem) :=
  match files with
  | [] => ret []
  | f :: rest =>
      match getFileType f with
      | Some ty =>
          u <- createObjectURL ;;
          i <- uuidv4 ;;
          t <- Date_now ;;
          items <- newItemsOf currentFolder rest ;;
          ret ({| id := i; type := ty; url := u; file := f;
                  thumbnailUrl := None; name := file_name f; timestamp := t;
                  aiDescription := None; isGenerated := None;
                  folder := currentFolder |} :: items)
      | None => newItemsOf currentFolder rest
      end
  end.

(** [handleFiles], from its [await] on: [c] is the render it was called in,
    [s] the state when the timer has fired. *)
Definition handleFiles (c : App) (files : list File) (s : App) : M App :=
  newItems <- newItemsOf (currentFolder c) files ;;
  ret (setIsUploading false (setMediaItems (fun prev => newItems ++ prev) s)).

(** [handleDrag]: [ty] is [e.type]. *)
Definition handleDrag (ty : string) (s : App) : App :=
  if String.eqb ty "dragenter" || String.eqb ty "dragover" then setDragActive true s
  else if String.eqb ty "dragleave" then setDragActive false s
  else s.

(** [new File([blob], `${name}.png`, { type: 'image/png' })]. *)
Definition pngFile (blob : Blob) (name : string) : File :=
  {| file_name := name ++ ".png"; file_type := "image/png";
     file_bytes := blob_bytes blob |}.

(** [base64ToBlob]: [fetch] of the data URL, then [res.blob()]. *)
Definition base64ToBlob (base64 : string) : M (JSError + Blob) :=
  fun w => (fetch_blob w base64, w).

Inductive SaveMode := new | overwrite.

(** [prev.map(cb)] for a callback that reads the host. *)
Fixpoint mapM {A B} (cb : A -> M B) (l : list A) : M (list B) :=
  match l with
  | [] => ret []
  | x :: rest => y <- cb x ;; ys <- mapM cb rest ;; ret (y :: ys)
  end.

(** The keys [url], [file], [name], [isGenerated: true] that the 'overwrite'
    branch spreads over an item, with [timestamp] when [t] is given. *)
Definition generated (url : string) (file : File) (name : string) (t : option Z)
    : PartialMediaItem :=
  {| p_id := None; p_type := None; p_url := Some url; p_file := Some file;
     p_thumbnailUrl := None; p_name := Some name; p_timestamp := t;
     p_aiDescription := None; p_isGenerated := Some (Some true);
     p_folder := None |}.

(** The callback of the [map] in the 'overwrite' branch. *)
Definition overwriteItem (originalId url : string) (file : File) (name : string)
    (item : MediaItem) : M MediaItem :=
  if String.eqb (id item) originalId then
    t <- Date_now ;;
    ret (spread item (generated url file name (Some t)))
  else ret item.

(** [mediaItems.find(i => i.id === originalId)]. *)
Definition findItem (originalId : string) (items : list MediaItem) : option MediaItem :=
  find (fun i => String.eqb (id i) originalId) items.

(** [setMediaItems(prev => ...)] for an updater that reads the host. *)
Definition setMediaItemsM (f : list MediaItem -> M (list MediaItem)) (s : App) : M App :=
  items <- f (mediaItems s) ;;
  ret (setMediaItems (fun _ => items) s).

(** [handleSaveGenerated], with its [try]/[catch]: when [base64ToBlob] throws,
    the error is logged and nothing is set. *)
Definition handleSaveGenerated (c : App) (originalId base64Url name : string)
    (mode : SaveMode) (s : App) : M App :=
  r <- base64ToBlob base64Url ;;
  match r with
  | inl _ => ret s
  | inr blob =>
      let file := pngFile blob name in
      url <- createObjectURL ;;
      match mode with
      | overwrite =>
          s1 <- setMediaItemsM (mapM (overwriteItem originalId url file name)) s ;;
          ret (setSelectedItem
                 (fun prev =>
                    match prev with
                    | Some p =>
                        Some (spread p (generated url file name None))
                    | None => None
                    end)
                 s1)
      | new =>
          let originalItem := findItem originalId (mediaItems c) in
          i <- uuidv4 ;;
          t <- Date_now ;;
          let newItem :=
            {| id := i; type := image; url := url; file := file;
               thumbnailUrl := None; name := name; timestamp := t;
               aiDescription := None; isGenerated := Some true;
               folder := match originalItem with
                         | Some o => folder o
                         | None => currentFolder c
                         end |} in
          ret (setMediaItems (fun prev => newItem :: prev) s)
      end
  end.

(** [handleUpdateItem]; [id0] is its parameter [id]. *)
Definition handleUpdateItem (c : App) (id0 : string) (updates : PartialMediaItem)
    (s : App) : App :=
  let s1 :=
    setMediaItems
      (map (fun item => if String.eqb (id item) id0 then spread item updates else item))
      s in
  match selectedItem c with
  | Some sel =>
      if String.eqb (id sel) id0 then
        setSelectedItem
          (fun prev => match prev with
                       | Some p => Some (spread p updates)
                       | None => None
                       end) s1
      else s1
  | None => s1
  end.

(** [folders.includes(x)]. *)
Definition includesFolder (l : list string) (x : string) : bool :=
  existsb (String.eqb x) l.

(** [filteredItems]. *)
Definition matchesType (t : TypeFilter) (item : MediaItem) : bool :=
  match t with
  | all => true
  | only ty => MediaType_eqb (type item) ty
  end.

Section WithBuiltins.
Context {B : StringBuiltins}.

(** [addFolder]. *)
Definition addFolder (s : App) : App :=
  let x := trim (newFolderInput s) in
  if truthy x && negb (includesFolder (folders s) x) then
    setShowNewFolderInput false
      (setNewFolderInput EmptyString (setFolders (folders s ++ [x]) s))
  else s.

Definition matches (s : App) (item : MediaItem) : bool :=
  let matchesFolder := String.eqb (folder item) (currentFolder s) in
  let matchesSearch :=
    includes (toLowerCase (name item)) (toLowerCase (searchQuery s)) in
  matchesFolder && matchesType (typeFilter s) item && matchesSearch.

Definition filteredItems (s : App) : list MediaItem :=
  filter (matches s) (mediaItems s).

End WithBuiltins.

(** ** services/geminiService.ts *)

(** [try { body } catch (error) { handler }]. *)
Definition try_catch {A} (body : M (JSError + A)) (handler : JSError -> M (JSError + A))
    : M (JSError + A) :=
  r <- body ;;
  match r with
  | inl error => handler error
  | inr a => ret (inr a)
  end.

(** [await p; k] inside a [try]: a rejection of [p] leaves the block. *)
Definition await {A C} (p : M (JSError + A)) (k : A -> M (JSError + C)) : M (JSError + C) :=
  r <- p ;;
  match r with
  | inl error => ret (inl error)
  | inr a => k a
  end.

(** [throw e]. *)
Definition throw {A} (e : JSError) : M (JSError + A) := ret (inl e).

(** [fileToBase64]: the reader's data URL, cut after its first comma. *)
Definition fileToBase64 (f : File) : M (JSError + option string) :=
  fun w =>
    (match readAsDataURL w f with
     | inl error => inl error
     | inr result => inr (split_comma_1 result)
     end, w).

(** [ai.models.generateContent]. *)
Definition generateContent (req : GenerateContentRequest)
    : M (JSError + GenerateContentResponse) :=
  fun w => (generateContent_at w (calls w) req, next_call w).

(** The guard [candidates && candidates[0] && candidates[0].content &&
    candidates[0].content.parts], giving the parts it lets through. *)
Definition firstParts (response : GenerateContentResponse) : option (list Part) :=
  match candidates response with
  | Some (c0 :: _) =>
      match content c0 with
      | Some ct => parts ct
      | None => None
      end
  | _ => None
  end.

(** [part.inlineData && part.inlineData.data], giving the data when truthy. *)
Definition inlineDataOf (part : Part) : option string :=
  match inlineData part with
  | Some d =>
      match data d with
      | Some bytes => if truthy bytes then Some bytes else None
      | None => None
      end
  | None => None
  end.

(** The [for] loop with its early [return]. *)
Fixpoint firstInline (ps : list Part) : option string :=
  match ps with
  | [] => None
  | part :: rest =>
      match inlineDataOf part with
      | Some bytes => Some bytes
      | None => firstInline rest
      end
  end.

Definition noImageError : JSError :=
  {| message := "Görsel oluşturulamadı. Lütfen tekrar deneyin." |}.

(** What [editImageWithGemini] does with a response it has received. *)
Definition imageOfResponse (response : GenerateContentResponse) : JSError + string :=
  match firstParts response with
  | Some ps =>
      match firstInline ps with
      | Some bytes => inr ("data:image/png;base64," ++ bytes)%string
      | None => inl noImageError
      end
  | None => inl noImageError
  end.

Definition editRequest (imageFile : File) (prompt : string) (base64Image : option string)
    : GenerateContentRequest :=
  {| model := "gemini-2.5-flash-image";
     contents :=
       [ {| text := Some (prompt ++ " (Return only the image, high quality)")%string;
            inlineData := None |};
         {| text := None;
            inlineData := Some {| mimeType := Some (file_type imageFile);
                                  data := base64Image |} |} ] |}.

(** [editImageWithGemini]: the [catch] logs and rethrows. *)
Definition editImageWithGemini (imageFile : File) (prompt : string) : M (JSError + string) :=
  try_catch
    (await (fileToBase64 imageFile) (fun base64Image =>
     await (generateContent (editRequest imageFile prompt base64Image)) (fun response =>
     ret (imageOfResponse response))))
    (fun error => throw error).

Definition analyzeRequest (videoFile : File) (prompt : string) (base64Video : option string)
    : GenerateContentRequest :=
  {| model := "gemini-2.5-flash-latest";
     contents :=
       [ {| text := Some prompt; inlineData := None |};
         {| text := None;
            inlineData := Some {| mimeType := Some (file_type videoFile);
                                  data := base64Video |} |} ] |}.

(** [analyzeVideoWithGemini]. *)
Definition analyzeVideoWithGemini (videoFile : File) (prompt : string) : M (JSError + string) :=
  try_catch
    (await (fileToBase64 videoFile) (fun base64Video =>
     await (generateContent (analyzeRequest videoFile prompt base64Video)) (fun response =>
     ret (inr (or_else (response_text response) "Video analiz edilemedi.")))))
    (fun error => throw error).

(** ** components/MediaModal.tsx *)

Record Modal := {
  prompt : string;
  status : AppStatus;
  resultText : option string;
  generatedImageUrl : option string;
  isEditingName : bool;
  tempName : string;
  showSaveOptions : bool;
  saveName : string
}.

Definition setStatus (v : AppStatus) (m : Modal) : Modal :=
  {| prompt := prompt m; status := v; resultText := resultText m;
     generatedImageUrl := generatedImageUrl m; isEditingName := isEditingName m;
     tempName := tempName m; showSaveOptions := showSaveOptions m;
     saveName := saveName m |}.

Definition setResultText (v : option string) (m : Modal) : Modal :=
  {| prompt := prompt m; status := status m; resultText := v;
     generatedImageUrl := generatedImageUrl m; isEditingName := isEditingName m;
     tempName := tempName m; showSaveOptions := showSaveOptions m;
     saveName := saveName m |}.

Definition setGeneratedImageUrl (v : option string) (m : Modal) : Modal :=
  {| prompt := prompt m; status := status m; resultText := resultText m;
     generatedImageUrl := v; isEditingName := isEditingName m;
     tempName := tempName m; showSaveOptions := showSaveOptions m;
     saveName := saveName m |}.

Definition setIsEditingName (v : bool) (m : Modal) : Modal :=
  {| prompt := prompt m; status := status m; resultText := resultText m;
     generatedImageUrl := generatedImageUrl m; isEditingName := v;
     tempName := tempName m; showSaveOptions := showSaveOptions m;
     saveName := saveName m |}.

Definition setShowSaveOptions (v : bool) (m : Modal) : Modal :=
  {| prompt := prompt m; status := status m; resultText := resultText m;
     generatedImageUrl := generatedImageUrl m; isEditingName := isEditingName m;
     tempName := tempName m; showSaveOptions := v;
     saveName := saveName m |}.

(** The state of the modal when it is mounted for [item], its effect on
    [item] included. *)
Definition mountModal (item : MediaItem) : Modal :=
  {| prompt := EmptyString;
     status := IDLE;
     resultText := match aiDescription item with
                   | Some d => if truthy d then Some d else None
                   | None => None
                   end;
     generatedImageUrl := None;
     isEditingName := false;
     tempName := name item;
     showSaveOptions := false;
     saveName := ("Edited-" ++ name item)%string |}.

(** What a handler of the modal asks of its surroundings: a call of one of
    the props, or an [alert]. *)
Inductive Effect :=
| OnUpdateItem (id0 : string) (updates : PartialMediaItem)
| OnSaveGenerated (originalId newUrl name : string) (mode : SaveMode)
| Alert (msg : string).

Definition editedMessage : string :=
  "Görsel başarıyla düzenlendi! Kaydetme seçenekleri için 'Kaydet' butonunu kullanın.".

Definition genericErrorMessage : string :=
  "Bir hata oluştu. Lütfen tekrar deneyin. (Dosya boyutu çok büyük olabilir)".

(** The three object literals the modal passes to [onUpdateItem]. *)
Definition justName (n : string) : PartialMediaItem :=
  {| p_id := None; p_type := None; p_url := None; p_file := None;
     p_thumbnailUrl := None; p_name := Some n; p_timestamp := None;
     p_aiDescription := None; p_isGenerated := None; p_folder := None |}.

Definition justFolder (f : string) : PartialMediaItem :=
  {| p_id := None; p_type := None; p_url := None; p_file := None;
     p_thumbnailUrl := None; p_name := None; p_timestamp := None;
     p_aiDescription := None; p_isGenerated := None; p_folder := Some f |}.

Definition justAiDescription (d : string) : PartialMediaItem :=
  {| p_id := None; p_type := None; p_url := None; p_file := None;
     p_thumbnailUrl := None; p_name := None; p_timestamp := None;
     p_aiDescription := Some (Some d); p_isGenerated := None; p_folder := None |}.

(** [handleFolderChange]; [value] is [e.target.value]. *)
Definition handleFolderChange (item : MediaItem) (value : string) (m : Modal)
    : Modal * list Effect :=
  (m, [OnUpdateItem (id item) (justFolder value)]).

Section ModalWithBuiltins.
Context {B : StringBuiltins}.

(** The [try] block of [handleAction], from the state [m1] the modal is in
    when the block is entered. *)
Definition actionBody (item : MediaItem) (promptToUse : string) (m1 : Modal)
    : M (JSError + Modal * list Effect) :=
  match type item with
  | image =>
      await (editImageWithGemini (file item) promptToUse) (fun newImageUrl =>
      ret (inr (setStatus SUCCESS
                  (setResultText (Some editedMessage)
                     (setGeneratedImageUrl (Some newImageUrl) m1)),
                [])))
  | video =>
      await (analyzeVideoWithGemini (file item) promptToUse) (fun analysis =>
      ret (inr (setStatus SUCCESS (setResultText (Some analysis) m1),
                [OnUpdateItem (id item) (justAiDescription analysis)])))
  end.

(** [handleAction]: the modal as the handler's own setters leave it, and the
    props it calls.  On the video path it calls [onUpdateItem]; the selected
    item is then another object, and what the modal shows after the next
    render is decided by its effect on [item] ([itemEffect]), not by the
    state returned here. *)
Definition handleAction (item : MediaItem) (customPrompt : option string) (m : Modal)
    : M (Modal * list Effect) :=
  let promptToUse := or_else customPrompt (prompt m) in
  if negb (truthy (trim promptToUse)) then ret (m, [])
  else
    let m1 := setStatus PROCESSING m in
    r <- actionBody item promptToUse m1 ;;
    match r with
    | inr done => ret done
    | inl _ => ret (setStatus ERROR (setResultText (Some genericErrorMessage) m1), [])
    end.

(** [handleRename]. *)
Definition handleRename (item : MediaItem) (m : Modal) : Modal * list Effect :=
  if truthy (trim (tempName m)) then
    (setIsEditingName false m, [OnUpdateItem (id item) (justName (tempName m))])
  else (m, []).

(** [executeSave]. *)
Definition executeSave (item : MediaItem) (mode : SaveMode) (m : Modal)
    : Modal * list Effect :=
  match generatedImageUrl m with
  | Some g =>
      if truthy g && truthy (trim (saveName m)) then
        let call := OnSaveGenerated (id item) g (saveName m) mode in
        match mode with
        | overwrite =>
            (setGeneratedImageUrl None (setShowSaveOptions false m),
             [call; Alert "Görsel güncellendi!"])
        | new =>
            (setShowSaveOptions false m,
             [call; Alert "Yeni görsel galeriye eklendi!"])
        end
      else (m, [])
  | None => (m, [])
  end.

End ModalWithBuiltins.

(** ** The running application

    The handlers with an [await] ([handleFiles], [handleSaveGenerated],
    [handleAction]) are suspended with the render they closed over and resumed
    later, on whatever the state is then; in between, any other event may
    happen.  The modal's own state only matters through the arguments it
    passes to its props, so an event of the modal carries that state: every
    state the modal can be in is covered. *)

Inductive Task :=
| TFiles (c : App) (files : list File)
| TSave (c : App) (originalId base64Url name : string) (mode : SaveMode)
| TAction (c : App) (item : MediaItem) (customPrompt : option string) (m : Modal).

Record Sys := { app : App; tasks : list Task }.

Inductive Event :=
| EvDrag (ty : string)               (* handleDrag *)
| EvDrop (files : list File)         (* handleDrop *)
| EvChange (files : list File)       (* handleChange *)
| EvFolder (n : nat)                 (* click on the n-th folder button *)
| EvSearch (q : string)
| EvTypeFilter (t : TypeFilter)
| EvShowNewFolder
| EvNewFolderInput (v : string)
| EvNewFolderBlur
| EvAddFolder                        (* the plus button, or Enter *)
| EvOpen (n : nat)                   (* click on the n-th card of filteredItems *)
| EvClose
| EvRename (m : Modal)
| EvFolderChange (m : Modal) (n : nat)  (* the n-th option of the select *)
| EvAction (m : Modal) (customPrompt : option string)
| EvExecuteSave (m : Modal) (mode : SaveMode)
| EvResume (n : nat).                (* the n-th suspended handler goes on *)

Definition start : Sys := {| app := initial; tasks := [] |}.

Definition onApp (f : App -> App) (x : Sys) : Sys :=
  {| app := f (app x); tasks := tasks x |}.

Definition suspend (t : Task) (x : Sys) : Sys :=
  {| app := app x; tasks := tasks x ++ [t] |}.

Fixpoint remove_nth {A} (n : nat) (l : list A) : list A :=
  match n, l with
  | _, [] => []
  | O, _ :: rest => rest
  | S k, a :: rest => a :: remove_nth k rest
  end.

(** [handleFiles] of render [c], up to its [await]. *)
Definition callHandleFiles (c : App) (files : list File) (x : Sys) : Sys :=
  suspend (TFiles c files) (onApp (setIsUploading true) x).

(** The body shared by [handleDrop] and [handleChange]:
    [if (files && files[0]) handleFiles(files)].  [handleDrop] is memoised on
    [currentFolder], the one thing [handleFiles] reads from its render. *)
Definition whenFiles (c : App) (files : list File) (x : Sys) : Sys :=
  match files with
  | [] => x
  | _ :: _ => callHandleFiles c files x
  end.

(** One effect of a modal handler that was created in render [c]. *)
Definition perform (c : App) (x : Sys) (e : Effect) : Sys :=
  match e with
  | OnUpdateItem id0 updates => onApp (handleUpdateItem c id0 updates) x
  | OnSaveGenerated originalId newUrl name mode =>
      suspend (TSave c originalId newUrl name mode) x
  | Alert _ => x
  end.

Section Running.
Context {B : StringBuiltins}.

Definition resume (t : Task) (x : Sys) : M Sys :=
  match t with
  | TFiles c files =>
      s <- handleFiles c files (app x) ;;
      ret {| app := s; tasks := tasks x |}
  | TSave c originalId base64Url name mode =>
      s <- handleSaveGenerated c originalId base64Url name mode (app x) ;;
      ret {| app := s; tasks := tasks x |}
  | TAction c item customPrompt m =>
      r <- handleAction item customPrompt m ;;
      ret (fold_left (perform c) (snd r) x)
  end.

Definition step (e : Event) (x : Sys) : M Sys :=
  let s := app x in
  match e with
  | EvDrag ty => ret (onApp (handleDrag ty) x)
  | EvDrop files => ret (whenFiles s files (onApp (setDragActive false) x))
  | EvChange files => ret (whenFiles s files x)
  | EvFolder n =>
      match nth_error (folders s) n with
      | Some f => ret (onApp (setCurrentFolder f) x)
      | None => ret x
      end
  | EvSearch q => ret (onApp (setSearchQuery q) x)
  | EvTypeFilter t => ret (onApp (setTypeFilter t) x)
  | EvShowNewFolder => ret (onApp (setShowNewFolderInput true) x)
  | EvNewFolderInput v => ret (onApp (setNewFolderInput v) x)
  | EvNewFolderBlur =>
      if truthy (newFolderInput s) then ret x
      else ret (onApp (setShowNewFolderInput false) x)
  | EvAddFolder => ret (onApp addFolder x)
  | EvOpen n =>
      match nth_error (filteredItems s) n with
      | Some item => ret (onApp (setSelectedItem (fun _ => Some item)) x)
      | None => ret x
      end
  | EvClose => ret (onApp (setSelectedItem (fun _ => None)) x)
  | EvRename m =>
      match selectedItem s with
      | Some item => ret (fold_left (perform s) (snd (handleRename item m)) x)
      | None => ret x
      end
  | EvFolderChange m n =>
      match selectedItem s, nth_error (folders s) n with
      | Some item, Some value =>
          ret (fold_left (perform s) (snd (handleFolderChange item value m)) x)
      | _, _ => ret x
      end
  | EvAction m customPrompt =>
      match selectedItem s with
      | Some item => ret (suspend (TAction s item customPrompt m) x)
      | None => ret x
      end
  | EvExecuteSave m mode =>
      match selectedItem s with
      | Some item => ret (fold_left (perform s) (snd (executeSave item mode m)) x)
      | None => ret x
      end
  | EvResume n =>
      match nth_error (tasks x) n with
      | Some t => resume t {| app := app x; tasks := remove_nth n (tasks x) |}
      | None => ret x
      end
  end.

(** The state after a sequence of events. *)
Fixpoint run (evs : list Event) (x : Sys) : M Sys :=
  match evs with
  | [] => ret x
  | e :: rest => y <- step e x ;; run rest y
  end.

End Running.

(** ** Sample data, to run the model on *)

Definition letter (n : nat) : string := String (ascii_of_nat (97 + n)) EmptyString.

(** A host in which every request to the model is answered by [answer]. *)
Definition worldWith
    (answer : nat -> GenerateContentRequest -> JSError + GenerateContentResponse) : World :=
  {| tick := 0;
     uuid_at := fun n => ("uuid-" ++ letter n)%string;
     now_at := fun n => (1700000000000 + Z.of_nat n)%Z;
     objectURL_at := fun n => ("blob:" ++ letter n)%string;
     fetch_blob := fun u =>
       if startsWith u "data:" then inr {| blob_type := "image/png"; blob_bytes := u |}
       else inl {| message := "Failed to fetch" |};
     readAsDataURL := fun f =>
       inr ("data:" ++ file_type f ++ ";base64," ++ file_bytes f)%string;
     calls := 0;
     generateContent_at := answer |}.

Definition offline : World :=
  worldWith (fun _ _ => inl {| message := "Failed to fetch" |}).

Definition photo : File :=
  {| file_name := "cat.jpg"; file_type := "image/jpeg"; file_bytes := "AAAA" |}.
Definition clip : File :=
  {| file_name := "trip.mp4"; file_type := "video/mp4"; file_bytes := "BBBB" |}.
Definition report : File :=
  {| file_name := "report.pdf"; file_type := "application/pdf"; file_bytes := "CCCC" |}.

Definition itemOf (i : string) (ty : MediaType) (f : File) (fo : string) : MediaItem :=
  {| id := i; type := ty; url := ("blob:" ++ i)%string; file := f;
     thumbnailUrl := None; name := file_name f; timestamp := 1700000000000%Z;
     aiDescription := None; isGenerated := None; folder := fo |}.

Definition withItems (items : list MediaItem) (sel : option MediaItem) : App :=
  setSelectedItem (fun _ => sel) (setMediaItems (fun _ => items) initial).

(** [isMedia f]: [getFileType f] is not [null]. *)
Definition isMedia (f : File) : bool :=
  match getFileType f with Some _ => true | None => false end.

(** No item is removed on the way from [before] to [after]: every id of
    [before] is an id of [after], and [after] is not shorter. *)
Definition keepsItems (before after : list MediaItem) : Prop :=
  (forall i, In i (map id before) -> In i (map id after)) /\
  length before <= length after.

(** The call to the service that [handleAction] makes for [item]. *)
Definition serviceCall (item : MediaItem) (promptToUse : string) : M (JSError + string) :=
  match type item with
  | image => editImageWithGemini (file item) promptToUse
  | video => analyzeVideoWithGemini (file item) promptToUse
  end.

(** In the words of the specification: the first candidate of the response
    contains a part with inline data that is not empty. *)
Definition hasInlineImage (response : GenerateContentResponse) : Prop :=
  exists c0 rest ct ps part d bytes,
    candidates response = Some (c0 :: rest) /\ content c0 = Some ct /\
    parts ct = Some ps /\ In part ps /\
    inlineData part = Some d /\ data d = Some bytes /\ bytes <> EmptyString.

(** The same response with every declared MIME type replaced through [g]. *)
Definition retypePart (g : option string -> option string) (part : Part) : Part :=
  {| text := text part;
     inlineData :=
       option_map (fun d => {| mimeType := g (mimeType d); data := data d |})
         (inlineData part) |}.

Definition retypeCandidate (g : option string -> option string) (cd : Candidate) : Candidate :=
  {| content :=
       option_map (fun ct => {| parts := option_map (map (retypePart g)) (parts ct) |})
         (content cd) |}.

Definition retype (g : option string -> option string) (response : GenerateContentResponse)
    : GenerateContentResponse :=
  {| candidates := option_map (map (retypeCandidate g)) (candidates response);
     response_text := response_text response |}.

(** A response whose only part is a JPEG, and a host that answers with it. *)
Definition jpegAnswer : GenerateContentResponse :=
  {| candidates :=
       Some [ {| content :=
                   Some {| parts :=
                             Some [ {| text := Some "Here you are"; inlineData := None |};
                                    {| text := None;
                                       inlineData :=
                                         Some {| mimeType := Some "image/jpeg";
                                                 data := Some "QUJD" |} |} ] |} |} ];
     response_text := Some "Here you are" |}.

Definition online : World := worldWith (fun _ _ => inr jpegAnswer).

Definition freshModal : Modal := mountModal (itemOf "a" image photo "Genel").

Definition setPrompt (p : string) (m : Modal) : Modal :=
  {| prompt := p; status := status m; resultText := resultText m;
     generatedImageUrl := generatedImageUrl m; isEditingName := isEditingName m;
     tempName := tempName m; showSaveOptions := showSaveOptions m;
     saveName := saveName m |}.

Definition setTempName (n : string) (m : Modal) : Modal :=
  {| prompt := prompt m; status := status m; resultText := resultText m;
     generatedImageUrl := generatedImageUrl m; isEditingName := isEditingName m;
     tempName := n; showSaveOptions := showSaveOptions m;
     saveName := saveName m |}.

(** [l] is [l'] with some elements left out, the others in their order. *)
Inductive Subseq {A} : list A -> list A -> Prop :=
| Subseq_nil : Subseq [] []
| Subseq_keep a l l' : Subseq l l' -> Subseq (a :: l) (a :: l')
| Subseq_drop a l l' : Subseq l l' -> Subseq l (a :: l').

(** The render a suspended handler closed over. *)
Definition closure (t : Task) : App :=
  match t with
  | TFiles c _ => c
  | TSave c _ _ _ _ => c
  | TAction c _ _ _ => c
  end.

(** In render [s], the current folder and the folder of every item are
    among [fs]. *)
Definition foldersOK (fs : list string) (s : App) : Prop :=
  In (currentFolder s) fs /\
  Forall (fun item => In (folder item) fs) (mediaItems s).

(** The invariant of the running application: the state, and every render a
    suspended handler still refers to, only name folders that exist, and the
    folders are pairwise distinct. *)
Definition Inv (x : Sys) : Prop :=
  NoDup (folders (app x)) /\
  foldersOK (folders (app x)) (app x) /\
  Forall (fun t => foldersOK (folders (app x)) (closure t)) (tasks x).

(** An effect that can neither give an item another id nor move it to a
    folder outside [fs]. *)
Definition safeEffect (fs : list string) (e : Effect) : Prop :=
  match e with
  | OnUpdateItem _ updates =>
      p_id updates = None /\
      match p_folder updates with
      | Some f => In f fs
      | None => True
      end
  | _ => True
  end.

(** ** More of App.tsx and MediaModal.tsx *)

(** The count shown beside a folder in the sidebar:
    [mediaItems.filter(i => i.folder === folder).length]. *)
Definition folderCount (s : App) (f : string) : nat :=
  length (filter (fun i => String.eqb (folder i) f) (mediaItems s)).

(** [handleDrop] and [handleChange], up to the [await] of [handleFiles]. *)
Definition handleDrop (files : list File) (x : Sys) : Sys :=
  whenFiles (app x) files (onApp (setDragActive false) x).

Definition handleChange (files : list File) (x : Sys) : Sys :=
  whenFiles (app x) files x.


(** [{ ...u, ...v }] for two [Partial<MediaItem>]. *)
Definition later {A} (a b : option A) : option A :=
  match b with Some _ => b | None => a end.

Definition mergeUpdates (u v : PartialMediaItem) : PartialMediaItem :=
  {| p_id := later (p_id u) (p_id v);
     p_type := later (p_type u) (p_type v);
     p_url := later (p_url u) (p_url v);
     p_file := later (p_file u) (p_file v);
     p_thumbnailUrl := later (p_thumbnailUrl u) (p_thumbnailUrl v);
     p_name := later (p_name u) (p_name v);
     p_timestamp := later (p_timestamp u) (p_timestamp v);
     p_aiDescription := later (p_aiDescription u) (p_aiDescription v);
     p_isGenerated := later (p_isGenerated u) (p_isGenerated v);
     p_folder := later (p_folder u) (p_folder v) |}.

(** No comma occurs in [s]. *)
Fixpoint commaFree (s : string) : bool :=
  match s with
  | EmptyString => true
  | String ch s' => negb (Ascii.eqb ch ",") && commaFree s'
  end.

(** A host whose uuids are all different: the n-th one is n letters long. *)
Fixpoint letters (n : nat) : string :=
  match n with
  | O => EmptyString
  | S k => String "u" (letters k)
  end.

Definition careful : World :=
  {| tick := 0;
     uuid_at := letters;
     now_at := fun n => (1700000000000 + Z.of_nat n)%Z;
     objectURL_at := fun n => ("blob:" ++ letters n)%string;
     fetch_blob := fun u => inr {| blob_type := "image/png"; blob_bytes := u |};
     readAsDataURL := fun f =>
       inr ("data:" ++ file_type f ++ ";base64," ++ file_bytes f)%string;
     calls := 0;
     generateContent_at := fun _ _ => inr jpegAnswer |}.

Definition movie : MediaItem := itemOf "v" video clip "Genel".

(** * Properties *)

(** ** The model at work *)

Example upload_of_three_files :
  map name (mediaItems (fst (handleFiles initial [photo; report; clip] initial offline))) =
  ["cat.jpg"; "trip.mp4"].
Proof. reflexivity. Qed.

Example search_ignores_case :
  let s := setSearchQuery "CAT"
             (withItems [itemOf "a" image photo "Genel"; itemOf "b" video clip "Genel"] None) in
  map id (filteredItems s) = ["a"].
Proof. reflexivity. Qed.

Example edit_answers_with_png_url :
  fst (editImageWithGemini photo "Make it brighter" online) =
  inr "data:image/png;base64,QUJD".
Proof. reflexivity. Qed.

Example edit_without_network :
  fst (editImageWithGemini photo "Make it brighter" offline) =
  inl {| message := "Failed to fetch" |}.
Proof. reflexivity. Qed.

Example a_session :
  let evs := [EvNewFolderInput " Aile "; EvAddFolder; EvFolder 4;
              EvDrop [photo; report]; EvResume 0; EvOpen 0;
              EvRename (setTempName "dog.jpg" freshModal)] in
  let s := app (fst (run evs start offline)) in
  folders s = ["Genel"; "Favoriler"; "İş"; "Tatil"; "Aile"] /\
  map (fun item => (name item, folder item)) (mediaItems s) = [("dog.jpg", "Aile")] /\
  option_map name (selectedItem s) = Some "dog.jpg".
Proof. repeat split. Qed.

(** ** Uploading *)

Lemma newItemsOf_spec (cf : string) (files : list File) (w : World) :
  map file (fst (newItemsOf cf files w)) = filter isMedia files /\
  Forall (fun item => folder item = cf) (fst (newItemsOf cf files w)).
Proof.
  revert w; induction files as [|f rest IH]; intro w; simpl.
  - split; [reflexivity | constructor].
  - unfold isMedia. destruct (getFileType f) as [ty|]; [|apply IH].
    unfold bind, createObjectURL, uuidv4, Date_now, ret.
    set (w3 := next_tick (next_tick (next_tick w))).
    specialize (IH w3). destruct (newItemsOf cf rest w3) as [items w4].
    simpl in *. destruct IH as [IH1 IH2]. split.
    + now rewrite IH1.
    + constructor; [reflexivity | exact IH2].
Qed.

Lemma handleFiles_mediaItems (c : App) (files : list File) (s : App) (w : World) :
  mediaItems (fst (handleFiles c files s w)) =
  fst (newItemsOf (currentFolder c) files w) ++ mediaItems s.
Proof.
  unfold handleFiles, bind, ret.
  destruct (newItemsOf (currentFolder c) files w) as [items w']. reflexivity.
Qed.

(** C1, as stated, fails: a file whose MIME type is neither [image/...] nor
    [video/...] is passed to [handleFiles] and no item is added for it. *)
Lemma handleFiles_skips_other_files :
  mediaItems (fst (handleFiles initial [report] initial offline)) = [] /\
  length (mediaItems (fst (handleFiles initial [report] initial offline))) <>
  length [report] + length (mediaItems initial).
Proof. split; [reflexivity | vm_compute; discriminate]. Qed.

(** C1, amended: [handleFiles] puts in front of [mediaItems] exactly one item
    for every file that [getFileType] accepts, in the order of the files and
    holding that file, and none for the other files; each new item has the
    folder that was current when [handleFiles] was called; the items already
    there follow, unchanged. *)
Theorem handleFiles_adds_one_per_media_file
    (c : App) (files : list File) (s : App) (w : World) :
  exists newItems,
    mediaItems (fst (handleFiles c files s w)) = newItems ++ mediaItems s /\
    map file newItems = filter isMedia files /\
    length newItems = length (filter isMedia files) /\
    Forall (fun item => folder item = currentFolder c) newItems.
Proof.
  exists (fst (newItemsOf (currentFolder c) files w)).
  destruct (newItemsOf_spec (currentFolder c) files w) as [Hmap Hfolder].
  split; [apply handleFiles_mediaItems|].
  split; [exact Hmap|]. split; [|exact Hfolder].
  rewrite <- Hmap. now rewrite length_map.
Qed.

(** ** Overwriting and updating in place *)

Lemma map_id_Forall2 (l l' : list MediaItem) :
  Forall2 (fun item item' => id item' = id item) l l' -> map id l' = map id l.
Proof.
  induction 1 as [|a b l l' Hab _ IH]; simpl; [reflexivity|].
  now rewrite Hab, IH.
Qed.

Lemma bind_run {A B} (m : M A) (k : A -> M B) (w : World) :
  bind m k w = k (fst (m w)) (snd (m w)).
Proof. unfold bind. now destruct (m w). Qed.

Lemma overwriteItem_run (originalId u : string) (f : File) (n : string)
    (item : MediaItem) (w : World) :
  overwriteItem originalId u f n item w =
  if String.eqb (id item) originalId
  then (spread item (generated u f n (Some (now_at w (tick w)))), next_tick w)
  else (item, w).
Proof. unfold overwriteItem. now destruct (String.eqb (id item) originalId). Qed.

Lemma mapM_overwriteItem (originalId u : string) (f : File) (n : string)
    (l : list MediaItem) (w : World) :
  Forall2
    (fun item item' =>
       if String.eqb (id item) originalId
       then exists k, item' = spread item (generated u f n (Some (now_at w k)))
       else item' = item)
    l (fst (mapM (overwriteItem originalId u f n) l w)).
Proof.
  revert w; induction l as [|a l IH]; intro w; simpl; [constructor|].
  rewrite !bind_run. unfold ret at 1. simpl fst.
  specialize (IH (snd (overwriteItem originalId u f n a w))).
  rewrite overwriteItem_run in *.
  destruct (String.eqb (id a) originalId) eqn:Ha; simpl in *.
  - constructor; [|exact IH]. rewrite Ha. now exists (tick w).
  - constructor; [|exact IH]. now rewrite Ha.
Qed.

Lemma handleSaveGenerated_overwrite_items
    (c : App) (originalId base64Url n : string) (s : App) (w : World) (blob : Blob) :
  fetch_blob w base64Url = inr blob ->
  mediaItems (fst (handleSaveGenerated c originalId base64Url n overwrite s w)) =
  fst (mapM (overwriteItem originalId (objectURL_at w (tick w)) (pngFile blob n) n)
         (mediaItems s) (next_tick w)).
Proof.
  intro Hblob.
  unfold handleSaveGenerated, bind, base64ToBlob, createObjectURL, setMediaItemsM, bind, ret.
  rewrite Hblob.
  destruct (mapM _ (mediaItems s) (next_tick w)) as [ys w']. reflexivity.
Qed.

(** C10: in 'overwrite' mode, when the generated image cannot be fetched the
    state is left as it is; otherwise every item whose id is the target id
    keeps its id, type, folder, aiDescription (and thumbnailUrl) and gets the
    new url, file and name, a timestamp read from the clock and
    [isGenerated = true], and every other item is unchanged, at its place. *)
Theorem handleSaveGenerated_overwrite_frame
    (c : App) (originalId base64Url newName : string) (s : App) (w : World) :
  let s' := fst (handleSaveGenerated c originalId base64Url newName overwrite s w) in
  match fetch_blob w base64Url with
  | inl _ => s' = s
  | inr blob =>
      Forall2
        (fun item item' =>
           if String.eqb (id item) originalId then
             id item' = id item /\ type item' = type item /\
             folder item' = folder item /\
             aiDescription item' = aiDescription item /\
             thumbnailUrl item' = thumbnailUrl item /\
             url item' = objectURL_at w (tick w) /\
             file item' = pngFile blob newName /\
             name item' = newName /\
             isGenerated item' = Some true /\
             exists k, timestamp item' = now_at w k
           else item' = item)
        (mediaItems s) (mediaItems s')
  end.
Proof.
  intro s'. subst s'.
  destruct (fetch_blob w base64Url) as [e|blob] eqn:Hblob.
  - unfold handleSaveGenerated, bind, base64ToBlob. now rewrite Hblob.
  - rewrite (handleSaveGenerated_overwrite_items _ _ _ _ _ _ _ Hblob).
    eapply Forall2_impl; [|apply mapM_overwriteItem].
    intros item item' H. simpl in H.
    destruct (String.eqb (id item) originalId); [|exact H].
    destruct H as [k ->]. simpl. repeat split; try reflexivity. now exists k.
Qed.

Lemma handleUpdateItem_mediaItems (c : App) (id0 : string) (updates : PartialMediaItem)
    (s : App) :
  mediaItems (handleUpdateItem c id0 updates s) =
  map (fun item => if String.eqb (id item) id0 then spread item updates else item)
    (mediaItems s).
Proof.
  unfold handleUpdateItem. destruct (selectedItem c) as [sel|]; [|reflexivity].
  now destruct (String.eqb (id sel) id0).
Qed.

Lemma Forall2_map_pointwise {A} (g : A -> A) (R : A -> A -> Prop) (l : list A) :
  (forall a, R a (g a)) -> Forall2 R l (map g l).
Proof. intro H. induction l; simpl; constructor; auto. Qed.

(** C9: [handleUpdateItem] keeps the length of [mediaItems]; position by
    position, an item whose id is not the given one is unchanged, and on an
    item whose id is the given one each field takes the value found in
    [updates] when the key is there and keeps its value otherwise; when no
    item has the given id, [mediaItems] is unchanged. *)
Theorem handleUpdateItem_frame
    (c : App) (id0 : string) (updates : PartialMediaItem) (s : App) :
  let l := mediaItems s in
  let l' := mediaItems (handleUpdateItem c id0 updates s) in
  length l' = length l /\
  Forall2
    (fun item item' =>
       if String.eqb (id item) id0 then
         match p_id updates with Some v => id item' = v | None => id item' = id item end /\
         match p_type updates with Some v => type item' = v | None => type item' = type item end /\
         match p_url updates with Some v => url item' = v | None => url item' = url item end /\
         match p_file updates with Some v => file item' = v | None => file item' = file item end /\
         match p_thumbnailUrl updates with
         | Some v => thumbnailUrl item' = v
         | None => thumbnailUrl item' = thumbnailUrl item
         end /\
         match p_name updates with Some v => name item' = v | None => name item' = name item end /\
         match p_timestamp updates with
         | Some v => timestamp item' = v
         | None => timestamp item' = timestamp item
         end /\
         match p_aiDescription updates with
         | Some v => aiDescription item' = v
         | None => aiDescription item' = aiDescription item
         end /\
         match p_isGenerated updates with
         | Some v => isGenerated item' = v
         | None => isGenerated item' = isGenerated item
         end /\
         match p_folder updates with
         | Some v => folder item' = v
         | None => folder item' = folder item
         end
       else item' = item)
    l l' /\
  (existsb (fun item => String.eqb (id item) id0) l = false -> l' = l).
Proof.
  intros l l'. subst l l'. rewrite handleUpdateItem_mediaItems.
  split; [apply length_map|]. split.
  - apply Forall2_map_pointwise. intro item.
    destruct (String.eqb (id item) id0); [|reflexivity].
    destruct updates as [a1 a2 a3 a4 a5 a6 a7 a8 a9 a10]; simpl.
    destruct a1, a2, a3, a4, a5, a6, a7, a8, a9, a10; simpl; repeat split.
  - induction (mediaItems s) as [|a l IH]; simpl; [reflexivity|].
    intro H. apply orb_false_elim in H as [Ha Hl].
    rewrite Ha. now rewrite IH.
Qed.

(** The theorem at a list of two items, none of which has the id asked for. *)
Lemma handleUpdateItem_frame_witness :
  let s := withItems [itemOf "a" image photo "Genel"; itemOf "b" video clip "Genel"] None in
  existsb (fun item => String.eqb (id item) "z") (mediaItems s) = false /\
  mediaItems (handleUpdateItem s "z" (justName "x") s) = mediaItems s.
Proof.
  intro s. split; [reflexivity|].
  apply (handleUpdateItem_frame s "z" (justName "x") s). reflexivity.
Defined.

(** ** Nothing is ever removed *)

Lemma handleSaveGenerated_ids
    (c : App) (originalId base64Url n : string) (mode : SaveMode) (s : App) (w : World) :
  exists added,
    map id (mediaItems (fst (handleSaveGenerated c originalId base64Url n mode s w))) =
    added ++ map id (mediaItems s).
Proof.
  destruct mode.
  - unfold handleSaveGenerated. rewrite bind_run. unfold base64ToBlob at 1. simpl.
    destruct (fetch_blob w base64Url) as [e|blob]; [now exists []|].
    rewrite !bind_run. unfold ret. simpl. now eexists [_].
  - exists []. simpl.
    destruct (fetch_blob w base64Url) as [e|blob] eqn:Hblob.
    + unfold handleSaveGenerated, bind, base64ToBlob. now rewrite Hblob.
    + rewrite (handleSaveGenerated_overwrite_items _ _ _ _ _ _ _ Hblob).
      apply map_id_Forall2. eapply Forall2_impl; [|apply mapM_overwriteItem].
      intros item item' Hi. simpl in Hi.
      destruct (String.eqb (id item) originalId); [|now subst].
      now destruct Hi as [k ->].
Qed.

Lemma handleUpdateItem_ids (c : App) (id0 : string) (updates : PartialMediaItem) (s : App) :
  p_id updates = None ->
  map id (mediaItems (handleUpdateItem c id0 updates s)) = map id (mediaItems s).
Proof.
  intro Hid. rewrite handleUpdateItem_mediaItems, map_map.
  apply map_ext. intro item. simpl.
  destruct (String.eqb (id item) id0); [|reflexivity].
  unfold spread. simpl. now rewrite Hid.
Qed.

(** ** The service wrapper *)

Lemma inlineDataOf_Some (part : Part) (bytes : string) :
  inlineDataOf part = Some bytes <->
  exists d, inlineData part = Some d /\ data d = Some bytes /\ bytes <> EmptyString.
Proof.
  unfold inlineDataOf. split.
  - destruct (inlineData part) as [d|]; [|discriminate].
    destruct (data d) as [b|] eqn:Hd; [|discriminate].
    destruct b; simpl; [discriminate|].
    intro H; injection H as <-. exists d. repeat split; auto. discriminate.
  - intros (d & -> & -> & Hne). destruct bytes; [now elim Hne | reflexivity].
Qed.

Lemma firstInline_Some (ps : list Part) (bytes : string) :
  firstInline ps = Some bytes <->
  exists before part after,
    ps = before ++ part :: after /\
    Forall (fun q => inlineDataOf q = None) before /\
    inlineDataOf part = Some bytes.
Proof.
  induction ps as [|p ps IH]; simpl.
  - split; [discriminate|]. intros (before & part & after & H & _).
    now destruct before.
  - destruct (inlineDataOf p) as [b|] eqn:Hp.
    + split.
      * intro H; injection H as <-. exists [], p, ps. repeat split; auto.
      * intros (before & part & after & H & Hb & Hpart).
        destruct before as [|q before]; simpl in H; injection H as -> ->.
        -- congruence.
        -- inversion Hb; congruence.
    + rewrite IH. split.
      * intros (before & part & after & -> & Hb & Hpart).
        exists (p :: before), part, after. repeat split; auto.
      * intros (before & part & after & H & Hb & Hpart).
        destruct before as [|q before]; simpl in H; injection H as -> ->.
        -- congruence.
        -- inversion Hb; subst. now exists before, part, after.
Qed.

Lemma firstInline_None (ps : list Part) :
  firstInline ps = None <-> forall part, In part ps -> inlineDataOf part = None.
Proof.
  induction ps as [|p ps IH]; simpl.
  - split; [intros _ part [] | reflexivity].
  - destruct (inlineDataOf p) as [b|] eqn:Hp.
    + split; [discriminate|]. intro H. specialize (H p (or_introl eq_refl)). congruence.
    + rewrite IH. split.
      * intros H part [<-|Hin]; auto.
      * intros H part Hin. apply H. now right.
Qed.

Lemma hasInlineImage_iff (response : GenerateContentResponse) :
  hasInlineImage response <->
  exists ps bytes, firstParts response = Some ps /\ firstInline ps = Some bytes.
Proof.
  unfold hasInlineImage, firstParts. split.
  - intros (c0 & rest & ct & ps & part & d & bytes & -> & -> & -> & Hin & Hd & Hb & Hne).
    exists ps. destruct (firstInline ps) as [b|] eqn:Hf; [now exists b|].
    rewrite firstInline_None in Hf. specialize (Hf part Hin).
    assert (inlineDataOf part = Some bytes) by (apply inlineDataOf_Some; eauto).
    congruence.
  - intros (ps & bytes & Hparts & Hf).
    destruct (candidates response) as [[|c0 rest]|]; try discriminate.
    destruct (content c0) as [ct|] eqn:Hct; [|discriminate].
    apply firstInline_Some in Hf as (before & part & after & -> & _ & Hpart).
    apply inlineDataOf_Some in Hpart as (d & Hd & Hb & Hne).
    exists c0, rest, ct, (before ++ part :: after), part, d, bytes.
    repeat split; auto. apply in_or_app. right. now left.
Qed.

Lemma editImageWithGemini_run (imageFile : File) (prompt0 : string) (w : World) :
  editImageWithGemini imageFile prompt0 w =
  match readAsDataURL w imageFile with
  | inl error => (inl error, w)
  | inr result =>
      (match generateContent_at w (calls w)
               (editRequest imageFile prompt0 (split_comma_1 result)) with
       | inl error => inl error
       | inr response => imageOfResponse response
       end, next_call w)
  end.
Proof.
  unfold editImageWithGemini, try_catch, await, throw, fileToBase64, generateContent.
  rewrite !bind_run. simpl.
  destruct (readAsDataURL w imageFile) as [e|result]; simpl; [reflexivity|].
  rewrite !bind_run. simpl.
  destruct (generateContent_at w (calls w) _) as [e|response]; simpl; [reflexivity|].
  unfold ret. simpl. now destruct (imageOfResponse response).
Qed.

Lemma analyzeVideoWithGemini_run (videoFile : File) (prompt0 : string) (w : World) :
  analyzeVideoWithGemini videoFile prompt0 w =
  match readAsDataURL w videoFile with
  | inl error => (inl error, w)
  | inr result =>
      (match generateContent_at w (calls w)
               (analyzeRequest videoFile prompt0 (split_comma_1 result)) with
       | inl error => inl error
       | inr response => inr (or_else (response_text response) "Video analiz edilemedi.")
       end, next_call w)
  end.
Proof.
  unfold analyzeVideoWithGemini, try_catch, await, throw, fileToBase64, generateContent.
  rewrite !bind_run. simpl.
  destruct (readAsDataURL w videoFile) as [e|result]; simpl; [reflexivity|].
  rewrite !bind_run. simpl.
  now destruct (generateContent_at w (calls w) _) as [e|response].
Qed.

Lemma firstInline_retype (g : option string -> option string) (ps : list Part) :
  firstInline (map (retypePart g) ps) = firstInline ps.
Proof.
  induction ps as [|p ps IH]; simpl; [reflexivity|].
  rewrite IH. unfold inlineDataOf, retypePart. simpl.
  now destruct (inlineData p) as [d|].
Qed.

(** C4: once the model has answered, [editImageWithGemini] returns a string
    ['data:image/png;base64,' + bytes] exactly when the first candidate of the
    response has a part with inline data that is not empty, [bytes] being the
    data of the first such part; otherwise it throws the error 'Görsel
    oluşturulamadı...' and returns nothing.  The declared MIME types have no
    part in the result. *)
Theorem editImageWithGemini_result
    (imageFile : File) (prompt0 : string) (w : World)
    (dataUrl : string) (response : GenerateContentResponse) :
  readAsDataURL w imageFile = inr dataUrl ->
  generateContent_at w (calls w)
    (editRequest imageFile prompt0 (split_comma_1 dataUrl)) = inr response ->
  let result := fst (editImageWithGemini imageFile prompt0 w) in
  (hasInlineImage response <->
   exists bytes, result = inr ("data:image/png;base64," ++ bytes)%string) /\
  (hasInlineImage response ->
   exists ps before part after d bytes,
     firstParts response = Some ps /\ ps = before ++ part :: after /\
     Forall (fun q => inlineDataOf q = None) before /\
     inlineData part = Some d /\ data d = Some bytes /\ bytes <> EmptyString /\
     result = inr ("data:image/png;base64," ++ bytes)%string) /\
  (~ hasInlineImage response ->
   result = inl {| message := "Görsel oluşturulamadı. Lütfen tekrar deneyin." |}) /\
  (forall g, imageOfResponse (retype g response) = imageOfResponse response).
Proof.
  intros Hread Hgen result. subst result.
  rewrite editImageWithGemini_run, Hread, Hgen. simpl fst.
  assert (Hyes : hasInlineImage response ->
                 exists ps before part after d bytes,
                   firstParts response = Some ps /\ ps = before ++ part :: after /\
                   Forall (fun q => inlineDataOf q = None) before /\
                   inlineData part = Some d /\ data d = Some bytes /\ bytes <> EmptyString /\
                   imageOfResponse response = inr ("data:image/png;base64," ++ bytes)%string).
  { intro H. apply hasInlineImage_iff in H as (ps & bytes & Hparts & Hf).
    pose proof Hf as Hf'.
    apply firstInline_Some in Hf' as (before & part & after & Hps & Hb & Hpart).
    apply inlineDataOf_Some in Hpart as (d & Hd & Hdata & Hne).
    exists ps, before, part, after, d, bytes. repeat split; auto.
    unfold imageOfResponse. now rewrite Hparts, Hf. }
  assert (Hno : ~ hasInlineImage response -> imageOfResponse response = inl noImageError).
  { intro H. unfold imageOfResponse.
    destruct (firstParts response) as [ps|] eqn:Hparts; [|reflexivity].
    destruct (firstInline ps) as [bytes|] eqn:Hf; [|reflexivity].
    elim H. apply hasInlineImage_iff. eauto. }
  split; [|split; [exact Hyes | split; [exact Hno|]]].
  - split.
    + intro H. destruct (Hyes H) as (ps & before & part & after & d & bytes & H').
      exists bytes. apply H'.
    + intros [bytes Hres]. apply hasInlineImage_iff.
      unfold imageOfResponse in Hres.
      destruct (firstParts response) as [ps|]; [|discriminate].
      destruct (firstInline ps) as [b|] eqn:Hf; [|discriminate]. eauto.
  - intro g. unfold imageOfResponse, firstParts, retype. simpl.
    destruct (candidates response) as [[|c0 rest]|]; simpl; try reflexivity.
    destruct (content c0) as [ct|]; simpl; [|reflexivity].
    destruct (parts ct) as [ps|]; simpl; [|reflexivity].
    now rewrite firstInline_retype.
Qed.

(** The theorem at the host that answers with one JPEG part. *)
Lemma editImageWithGemini_result_witness :
  fst (editImageWithGemini photo "Make it brighter" online) =
  inr "data:image/png;base64,QUJD" /\
  hasInlineImage jpegAnswer.
Proof.
  pose proof (editImageWithGemini_result photo "Make it brighter" online
                "data:image/jpeg;base64,AAAA" jpegAnswer eq_refl eq_refl) as [H _].
  split; [reflexivity|]. apply H. now exists "QUJD".
Defined.

(** ** Failures of the service *)

Lemma serviceCall_calls (item : MediaItem) (p : string) (w : World) :
  calls (snd (serviceCall item p w)) <= S (calls w).
Proof.
  unfold serviceCall.
  destruct (type item);
    rewrite ?editImageWithGemini_run, ?analyzeVideoWithGemini_run;
    destruct (readAsDataURL w (file item)); simpl; lia.
Qed.

Lemma actionBody_throws {B : StringBuiltins}
    (item : MediaItem) (p : string) (m1 : Modal) (w : World) (e : JSError) :
  fst (serviceCall item p w) = inl e ->
  actionBody item p m1 w = (inl e, snd (serviceCall item p w)).
Proof.
  unfold actionBody, serviceCall, await. intro H.
  destruct (type item); rewrite bind_run, H; reflexivity.
Qed.

(** C3: when the call that [handleAction] makes to [editImageWithGemini] or
    [analyzeVideoWithGemini] throws, whatever the error, the modal ends with
    the result text 'Bir hata oluştu. ...' and status ERROR; no prop of the
    parent is called, so the gallery state is what it was; and the host has
    seen that one call only, with at most one request to the model. *)
Theorem handleAction_error {B : StringBuiltins}
    (item : MediaItem) (customPrompt : option string) (m : Modal)
    (w : World) (e : JSError) :
  let p := or_else customPrompt (prompt m) in
  truthy (trim p) = true ->
  fst (serviceCall item p w) = inl e ->
  let r := handleAction item customPrompt m w in
  resultText (fst (fst r)) =
    Some "Bir hata oluştu. Lütfen tekrar deneyin. (Dosya boyutu çok büyük olabilir)" /\
  status (fst (fst r)) = ERROR /\
  fst (fst r) =
    setStatus ERROR (setResultText (Some genericErrorMessage) (setStatus PROCESSING m)) /\
  snd (fst r) = [] /\
  (forall c x, fst (resume (TAction c item customPrompt m) x w) = x) /\
  snd r = snd (serviceCall item p w) /\
  calls (snd r) <= S (calls w).
Proof.
  intros p Hp He r.
  assert (Hr : r = ((setStatus ERROR
                       (setResultText (Some genericErrorMessage) (setStatus PROCESSING m)),
                     []), snd (serviceCall item p w))).
  { subst r. unfold handleAction. fold p. rewrite Hp. cbn [negb]. cbv beta iota zeta.
    rewrite bind_run, (actionBody_throws _ _ _ _ _ He). reflexivity. }
  repeat split; try (rewrite Hr; reflexivity).
  - intros c x. unfold resume. rewrite bind_run. fold r. now rewrite Hr.
  - rewrite Hr. simpl. apply serviceCall_calls.
Qed.

(** The theorem at a host without network, for a photo and a typed prompt. *)
Lemma handleAction_error_witness :
  let item := itemOf "a" image photo "Genel" in
  let m := setPrompt "Make it brighter" freshModal in
  status (fst (fst (handleAction item None m offline))) = ERROR /\
  snd (fst (handleAction item None m offline)) = [].
Proof.
  intros item m.
  pose proof (handleAction_error item None m offline {| message := "Failed to fetch" |}
                eq_refl eq_refl) as H.
  split; apply H.
Defined.

(** ** Renaming *)

(** C5: a rename to a name whose trimmed form is not empty gives that name,
    untrimmed, to every item of [mediaItems] with the id of the modal's item,
    leaving the other items as they are, and to the selected item when its
    id is that id; a rename to a name whose trimmed form is empty changes
    neither the gallery nor the modal. *)
Theorem rename_updates_list_and_modal {B : StringBuiltins}
    (item : MediaItem) (m : Modal) (x : Sys) :
  let N := tempName m in
  let x' := fold_left (perform (app x)) (snd (handleRename item m)) x in
  (truthy (trim N) = true ->
   mediaItems (app x') =
     map (fun it => if String.eqb (id it) (id item) then spread it (justName N) else it)
       (mediaItems (app x)) /\
   (forall it, In it (mediaItems (app x')) -> id it = id item -> name it = N) /\
   (forall sel, selectedItem (app x) = Some sel -> id sel = id item ->
      selectedItem (app x') = Some (spread sel (justName N)) /\
      name (spread sel (justName N)) = N)) /\
  (truthy (trim N) = false -> x' = x /\ fst (handleRename item m) = m) /\
  (forall w, selectedItem (app x) = Some item -> step (EvRename m) x w = (x', w)).
Proof.
  intros N x'. subst x'. unfold handleRename. fold N. split; [|split].
  - intro HN. rewrite HN. simpl. rewrite handleUpdateItem_mediaItems.
    split; [reflexivity|]. split.
    + intros it Hin Hid. apply in_map_iff in Hin as (it0 & Hit & _).
      destruct (String.eqb (id it0) (id item)) eqn:E.
      * now subst it.
      * subst it. apply String.eqb_neq in E. contradiction.
    + intros sel Hsel Hid. split; [|reflexivity].
      unfold handleUpdateItem. rewrite Hsel.
      apply String.eqb_eq in Hid. rewrite Hid. simpl. now rewrite Hsel.
  - intro HN. rewrite HN. simpl. split; [now destruct x | reflexivity].
  - intros w Hsel. simpl. rewrite Hsel. unfold handleRename. fold N. reflexivity.
Qed.

(** The theorem at the rename of an open photo to 'dog.jpg'. *)
Lemma rename_updates_list_and_modal_witness :
  let a := itemOf "a" image photo "Genel" in
  let x := {| app := withItems [a; itemOf "b" video clip "Genel"] (Some a); tasks := [] |} in
  let m := setTempName "dog.jpg" (mountModal a) in
  let x' := fold_left (perform (app x)) (snd (handleRename a m)) x in
  map name (mediaItems (app x')) = ["dog.jpg"; "trip.mp4"] /\
  option_map name (selectedItem (app x')) = Some "dog.jpg".
Proof.
  intros a x m x'.
  destruct (rename_updates_list_and_modal a m x) as [H _].
  destruct (H eq_refl) as (H1 & _ & H3).
  destruct (H3 a eq_refl eq_refl) as [H4 _].
  split.
  - subst x'. rewrite H1. reflexivity.
  - subst x'. rewrite H4. reflexivity.
Defined.

(** ** Filtering *)

Lemma prefix_iff (q s : string) :
  String.prefix q s = true <-> exists post, s = (q ++ post)%string.
Proof.
  revert s; induction q as [|a q IH]; intro s; simpl.
  - split; [intros _; now exists s | intros _; now destruct s].
  - destruct s as [|b s]; simpl.
    + split; [discriminate | intros [post H]; discriminate H].
    + destruct (ascii_dec a b) as [->|Hne].
      * rewrite IH. split; intros [post H]; exists post; congruence.
      * split; [discriminate | intros [post H]; congruence].
Qed.

Lemma includes_iff (s q : string) :
  includes s q = true <-> exists pre post, s = (pre ++ q ++ post)%string.
Proof.
  induction s as [|a s IH]; cbn [includes].
  - rewrite orb_false_r, prefix_iff. split.
    + intros [post H]. now exists EmptyString, post.
    + intros (pre & post & H). destruct pre; simpl in H; [now exists post|discriminate].
  - rewrite orb_true_iff, prefix_iff, IH. split.
    + intros [[post H]|(pre & post & H)].
      * now exists EmptyString, post.
      * exists (String a pre), post. simpl. now rewrite H.
    + intros (pre & post & H). destruct pre as [|b pre]; simpl in H.
      * left. now exists post.
      * right. exists pre, post. congruence.
Qed.

Lemma MediaType_eqb_eq (a b : MediaType) : MediaType_eqb a b = true <-> a = b.
Proof. destruct a, b; simpl; split; congruence. Qed.

Lemma filter_Subseq {A} (keep : A -> bool) (l : list A) : Subseq (filter keep l) l.
Proof.
  induction l as [|a l IH]; simpl; [constructor|].
  destruct (keep a); now constructor.
Qed.

Lemma matches_iff {B : StringBuiltins} (s : App) (item : MediaItem) :
  matches s item = true <->
  folder item = currentFolder s /\
  (typeFilter s = all \/ typeFilter s = only (type item)) /\
  exists pre post,
    toLowerCase (name item) = (pre ++ toLowerCase (searchQuery s) ++ post)%string.
Proof.
  unfold matches. rewrite !andb_true_iff, String.eqb_eq, includes_iff.
  assert (Ht : matchesType (typeFilter s) item = true <->
               typeFilter s = all \/ typeFilter s = only (type item)).
  { unfold matchesType. destruct (typeFilter s) as [|ty].
    - split; auto.
    - rewrite MediaType_eqb_eq. split.
      + intros ->. now right.
      + intros [H|H]; [discriminate | congruence]. }
  rewrite Ht. tauto.
Qed.

(** C8: [filteredItems] is [mediaItems] with exactly the items left out that
    fail one of the three tests (folder equal to [currentFolder]; [typeFilter]
    'all' or equal to the item's type; lower-cased name containing the
    lower-cased [searchQuery]), so the survivors keep their relative order;
    an empty [searchQuery] is contained in every name. *)
Theorem filteredItems_spec {B : StringBuiltins} (s : App) :
  (exists keep,
     filteredItems s = filter keep (mediaItems s) /\
     forall item,
       keep item = true <->
       folder item = currentFolder s /\
       (typeFilter s = all \/ typeFilter s = only (type item)) /\
       exists pre post,
         toLowerCase (name item) = (pre ++ toLowerCase (searchQuery s) ++ post)%string) /\
  (forall item,
     In item (filteredItems s) <->
     In item (mediaItems s) /\
     folder item = currentFolder s /\
     (typeFilter s = all \/ typeFilter s = only (type item)) /\
     exists pre post,
       toLowerCase (name item) = (pre ++ toLowerCase (searchQuery s) ++ post)%string) /\
  Subseq (filteredItems s) (mediaItems s) /\
  (forall n, includes (toLowerCase n) (toLowerCase EmptyString) = true).
Proof.
  split; [|split; [|split]].
  - exists (matches s). split; [reflexivity | apply matches_iff].
  - intro item. unfold filteredItems. rewrite filter_In, matches_iff. tauto.
  - apply filter_Subseq.
  - intro n. rewrite toLowerCase_empty. apply includes_iff. now exists EmptyString, (toLowerCase n).
Qed.

(** ** Folders *)

Lemma includesFolder_In (l : list string) (x : string) :
  includesFolder l x = true <-> In x l.
Proof.
  unfold includesFolder. rewrite existsb_exists. split.
  - intros (y & Hy & E). apply String.eqb_eq in E. now subst.
  - intro H. exists x. split; [exact H | apply String.eqb_refl].
Qed.

Lemma truthy_iff (s : string) : truthy s = true <-> s <> EmptyString.
Proof. destruct s; simpl; split; congruence. Qed.

Lemma addFolder_cases {B : StringBuiltins} (s : App) :
  let x := trim (newFolderInput s) in
  (x <> EmptyString /\ ~ In x (folders s) /\
   addFolder s = setShowNewFolderInput false
                   (setNewFolderInput EmptyString (setFolders (folders s ++ [x]) s))) \/
  ((x = EmptyString \/ In x (folders s)) /\ addFolder s = s).
Proof.
  intro x. unfold addFolder. fold x.
  destruct (truthy x) eqn:Ht; simpl.
  - destruct (includesFolder (folders s) x) eqn:Hi; simpl.
    + right. split; [right; now apply includesFolder_In | reflexivity].
    + left. split; [now apply truthy_iff|]. split; [|reflexivity].
      intro H. apply includesFolder_In in H. congruence.
  - right. split; [left | reflexivity]. now destruct x.
Qed.

Lemma handleFiles_frame (c : App) (files : list File) (s : App) (w : World) :
  folders (fst (handleFiles c files s w)) = folders s /\
  currentFolder (fst (handleFiles c files s w)) = currentFolder s.
Proof. unfold handleFiles. rewrite bind_run. now split. Qed.

Lemma findItem_In (originalId : string) (items : list MediaItem) (o : MediaItem) :
  findItem originalId items = Some o -> In o items.
Proof. intro H. now apply find_some in H. Qed.

Lemma handleSaveGenerated_new_items
    (c : App) (originalId base64Url n : string) (s : App) (w : World) :
  let s' := fst (handleSaveGenerated c originalId base64Url n new s w) in
  mediaItems s' = mediaItems s \/
  exists item,
    mediaItems s' = item :: mediaItems s /\
    folder item = match findItem originalId (mediaItems c) with
                  | Some o => folder o
                  | None => currentFolder c
                  end.
Proof.
  simpl. unfold handleSaveGenerated. rewrite bind_run. unfold base64ToBlob at 1. simpl.
  destruct (fetch_blob w base64Url) as [e|blob]; [now left|].
  rewrite !bind_run. unfold ret. simpl. right. eexists. split; reflexivity.
Qed.

Lemma handleSaveGenerated_frame
    (c : App) (originalId base64Url n : string) (mode : SaveMode) (s : App) (w : World) :
  folders (fst (handleSaveGenerated c originalId base64Url n mode s w)) = folders s /\
  currentFolder (fst (handleSaveGenerated c originalId base64Url n mode s w)) =
  currentFolder s.
Proof.
  unfold handleSaveGenerated. rewrite bind_run. unfold base64ToBlob at 1. simpl.
  destruct (fetch_blob w base64Url) as [e|blob]; [now split|].
  rewrite bind_run. destruct mode.
  - rewrite !bind_run. now split.
  - unfold setMediaItemsM. rewrite !bind_run. now split.
Qed.

Lemma handleUpdateItem_keeps_folders
    (c : App) (id0 : string) (updates : PartialMediaItem) (s : App) :
  folders (handleUpdateItem c id0 updates s) = folders s /\
  currentFolder (handleUpdateItem c id0 updates s) = currentFolder s.
Proof.
  unfold handleUpdateItem. destruct (selectedItem c) as [sel|]; [|now split].
  destruct (String.eqb (id sel) id0); now split.
Qed.

Lemma foldersOK_incl (fs fs' : list string) (s : App) :
  incl fs fs' -> foldersOK fs s -> foldersOK fs' s.
Proof.
  intros Hi [H1 H2]. split; [now apply Hi|].
  eapply Forall_impl; [|exact H2]. intros item H. now apply Hi.
Qed.

Lemma Inv_items (x y : Sys) :
  folders (app y) = folders (app x) ->
  currentFolder (app y) = currentFolder (app x) ->
  Forall (fun item => In (folder item) (folders (app x))) (mediaItems (app y)) ->
  tasks y = tasks x ->
  Inv x -> Inv y.
Proof.
  unfold Inv, foldersOK. intros -> -> H ->. tauto.
Qed.

Lemma Inv_suspend (t : Task) (x : Sys) :
  foldersOK (folders (app x)) (closure t) -> Inv x -> Inv (suspend t x).
Proof.
  intros Ht (Hd & Hs & Hts). unfold Inv, suspend. simpl.
  repeat split; try apply Hs; auto.
  apply Forall_app. split; [exact Hts | now constructor].
Qed.

Lemma Inv_closure_here (x : Sys) : Inv x -> foldersOK (folders (app x)) (app x).
Proof. intro H. apply H. Qed.

Lemma Inv_handleUpdateItem (c : App) (id0 : string) (updates : PartialMediaItem) (x : Sys) :
  safeEffect (folders (app x)) (OnUpdateItem id0 updates) ->
  Inv x -> Inv (onApp (handleUpdateItem c id0 updates) x).
Proof.
  intros Hsafe Hx.
  destruct (handleUpdateItem_keeps_folders c id0 updates (app x)) as [Hf Hc].
  apply (Inv_items x); simpl; auto.
  rewrite handleUpdateItem_mediaItems. apply Forall_map.
  destruct Hx as (_ & [_ Hitems] & _).
  eapply Forall_impl; [|exact Hitems]. intros item Hitem. simpl.
  destruct (String.eqb (id item) id0); [|exact Hitem].
  destruct Hsafe as [_ Hsafe]. unfold spread, over. simpl.
  now destruct (p_folder updates).
Qed.

Lemma perform_folders (c : App) (x : Sys) (e : Effect) :
  folders (app (perform c x e)) = folders (app x).
Proof.
  destruct e; simpl; auto. apply handleUpdateItem_keeps_folders.
Qed.

Lemma Inv_perform (c : App) (x : Sys) (e : Effect) :
  foldersOK (folders (app x)) c -> safeEffect (folders (app x)) e ->
  Inv x -> Inv (perform c x e).
Proof.
  intros Hc Hsafe Hx. destruct e; simpl.
  - now apply Inv_handleUpdateItem.
  - now apply Inv_suspend.
  - exact Hx.
Qed.

Lemma Inv_fold_perform (c : App) (effects : list Effect) (x : Sys) :
  foldersOK (folders (app x)) c ->
  Forall (safeEffect (folders (app x))) effects ->
  Inv x -> Inv (fold_left (perform c) effects x).
Proof.
  revert x; induction effects as [|e effects IH]; intros x Hc Hsafe Hx; simpl; auto.
  inversion Hsafe; subst. apply IH; rewrite ?perform_folders; auto.
  now apply Inv_perform.
Qed.

Lemma fold_perform_folders (c : App) (effects : list Effect) (x : Sys) :
  folders (app (fold_left (perform c) effects x)) = folders (app x).
Proof.
  revert x; induction effects as [|e effects IH]; intro x; simpl; auto.
  now rewrite IH, perform_folders.
Qed.

Lemma handleAction_safe {B : StringBuiltins}
    (fs : list string) (item : MediaItem) (customPrompt : option string)
    (m : Modal) (w : World) :
  Forall (safeEffect fs) (snd (fst (handleAction item customPrompt m w))).
Proof.
  unfold handleAction.
  destruct (negb _); [constructor|]. cbv beta zeta. rewrite bind_run.
  destruct (fst (actionBody _ _ _ w)) as [e|done] eqn:E; [constructor|].
  unfold ret. simpl. unfold actionBody, await in E.
  destruct (type item); rewrite bind_run in E.
  - destruct (fst (editImageWithGemini _ _ w)); simpl in E; [discriminate|].
    injection E as <-. constructor.
  - destruct (fst (analyzeVideoWithGemini _ _ w)); simpl in E; [discriminate|].
    injection E as <-. repeat constructor.
Qed.

Lemma handleRename_safe {B : StringBuiltins} (fs : list string) (item : MediaItem) (m : Modal) :
  Forall (safeEffect fs) (snd (handleRename item m)).
Proof. unfold handleRename. destruct (truthy _); repeat constructor. Qed.

Lemma executeSave_safe {B : StringBuiltins}
    (fs : list string) (item : MediaItem) (mode : SaveMode) (m : Modal) :
  Forall (safeEffect fs) (snd (executeSave item mode m)).
Proof.
  unfold executeSave. destruct (generatedImageUrl m) as [g|]; [|constructor].
  destruct (_ && _); [|constructor]. destruct mode; repeat constructor.
Qed.

Lemma NoDup_snoc (l : list string) (x : string) :
  NoDup l -> ~ In x l -> NoDup (l ++ [x]).
Proof.
  induction 1 as [|a l Ha Hl IH]; simpl; intro Hx.
  - repeat constructor. intros [].
  - constructor.
    + intro H. apply in_app_or in H as [H|[H|[]]]; [contradiction|].
      apply Hx. now left.
    + apply IH. intro H. apply Hx. now right.
Qed.

Lemma Inv_addFolder {B : StringBuiltins} (x : Sys) : Inv x -> Inv (onApp addFolder x).
Proof.
  intros (Hd & Hs & Hts). unfold onApp.
  destruct (addFolder_cases (app x)) as [(Hne & Hnotin & ->)|(_ & ->)].
  - unfold Inv. simpl. split; [now apply NoDup_snoc|].
    assert (Hi : incl (folders (app x)) (folders (app x) ++ [trim (newFolderInput (app x))])).
    { intros a Ha. apply in_or_app. now left. }
    split.
    + apply (foldersOK_incl _ _ _ Hi) in Hs. exact Hs.
    + eapply Forall_impl; [|exact Hts]. intros t. apply foldersOK_incl, Hi.
  - now destruct x.
Qed.

Lemma Forall_remove_nth {A} (P : A -> Prop) (n : nat) (l : list A) :
  Forall P l -> Forall P (remove_nth n l).
Proof.
  revert n; induction l as [|a l IH]; intros n H; destruct n; simpl; auto.
  - now inversion H.
  - inversion H; subst. constructor; auto.
Qed.

Lemma overwrite_keeps_folders
    (fs : list string) (originalId u : string) (f : File) (n : string)
    (l : list MediaItem) (w : World) :
  Forall (fun item => In (folder item) fs) l ->
  Forall (fun item => In (folder item) fs) (fst (mapM (overwriteItem originalId u f n) l w)).
Proof.
  intro H. pose proof (mapM_overwriteItem originalId u f n l w) as H2.
  induction H2 as [|a b l l' Hab _ IH]; [constructor|].
  inversion H; subst. constructor; [|now apply IH].
  simpl in Hab. destruct (String.eqb (id a) originalId); [|now subst].
  now destruct Hab as [k ->].
Qed.

Lemma Inv_resume {B : StringBuiltins} (t : Task) (x : Sys) (w : World) :
  foldersOK (folders (app x)) (closure t) -> Inv x -> Inv (fst (resume t x w)).
Proof.
  intros [Hc Hcitems] Hx. pose proof Hx as (Hd & [Hcur Hitems] & Hts).
  destruct t as [c files|c originalId base64Url n mode|c item customPrompt m];
    simpl in Hc, Hcitems; unfold resume; rewrite bind_run; unfold ret; simpl fst.
  - destruct (handleFiles_frame c files (app x) w) as [Hf Hcf].
    apply (Inv_items x); simpl; auto.
    rewrite handleFiles_mediaItems. apply Forall_app. split; [|exact Hitems].
    destruct (newItemsOf_spec (currentFolder c) files w) as [_ Hnew].
    eapply Forall_impl; [|exact Hnew]. simpl. now intros item ->.
  - destruct (handleSaveGenerated_frame c originalId base64Url n mode (app x) w) as [Hf Hcf].
    apply (Inv_items x); simpl; auto.
    destruct mode.
    + destruct (handleSaveGenerated_new_items c originalId base64Url n (app x) w)
        as [->|(item & -> & Hfolder)]; [exact Hitems|].
      constructor; [|exact Hitems]. rewrite Hfolder.
      destruct (findItem originalId (mediaItems c)) as [o|] eqn:Ho; [|exact Hc].
      apply findItem_In in Ho. rewrite Forall_forall in Hcitems. now apply Hcitems.
    + destruct (fetch_blob w base64Url) as [e|blob] eqn:Hblob.
      * unfold handleSaveGenerated, bind, base64ToBlob. now rewrite Hblob.
      * rewrite (handleSaveGenerated_overwrite_items _ _ _ _ _ _ _ Hblob).
        now apply overwrite_keeps_folders.
  - apply Inv_fold_perform; auto.
    + now split.
    + apply handleAction_safe.
Qed.

Lemma Inv_step {B : StringBuiltins} (e : Event) (x : Sys) (w : World) :
  Inv x -> Inv (fst (step e x w)).
Proof.
  intro Hx. pose proof (Inv_closure_here x Hx) as Hhere.
  destruct e; simpl.
  - unfold handleDrag. destruct (_ || _); [exact Hx|].
    destruct (String.eqb ty "dragleave"); exact Hx.
  - destruct files as [|f files]; simpl; [exact Hx|].
    unfold callHandleFiles. apply Inv_suspend; [exact Hhere | exact Hx].
  - destruct files as [|f files]; simpl; [exact Hx|].
    unfold callHandleFiles. apply Inv_suspend; [exact Hhere | exact Hx].
  - destruct (nth_error (folders (app x)) n) as [f|] eqn:Hn; simpl; [|exact Hx].
    apply nth_error_In in Hn. destruct Hx as (Hd & [_ Hitems] & Hts).
    unfold Inv, foldersOK. simpl. tauto.
  - exact Hx.
  - exact Hx.
  - exact Hx.
  - exact Hx.
  - destruct (truthy (newFolderInput (app x))); exact Hx.
  - now apply Inv_addFolder.
  - destruct (nth_error (filteredItems (app x)) n); exact Hx.
  - exact Hx.
  - destruct (selectedItem (app x)) as [item|]; simpl; [|exact Hx].
    apply Inv_fold_perform; auto. apply handleRename_safe.
  - destruct (selectedItem (app x)) as [item|]; simpl; [|exact Hx].
    destruct (nth_error (folders (app x)) n) as [value|] eqn:Hn; simpl; [|exact Hx].
    apply nth_error_In in Hn. apply Inv_handleUpdateItem; [now split | exact Hx].
  - destruct (selectedItem (app x)) as [item|]; simpl; [|exact Hx].
    now apply Inv_suspend.
  - destruct (selectedItem (app x)) as [item|]; simpl; [|exact Hx].
    apply Inv_fold_perform; auto. apply executeSave_safe.
  - destruct (nth_error (tasks x) n) as [t|] eqn:Hn; [|exact Hx].
    destruct Hx as (Hd & Hs & Hts). apply Inv_resume; simpl.
    + apply nth_error_In in Hn. rewrite Forall_forall in Hts. now apply Hts.
    + unfold Inv. simpl. repeat split; try apply Hs; auto.
      now apply Forall_remove_nth.
Qed.

Lemma Inv_start : Inv start.
Proof.
  unfold Inv, start, foldersOK. simpl. split; [|split; [split|]].
  - repeat (constructor; [simpl; intuition discriminate|]). constructor.
  - now left.
  - constructor.
  - constructor.
Qed.

Lemma Inv_run {B : StringBuiltins} (evs : list Event) (x : Sys) (w : World) :
  Inv x -> Inv (fst (run evs x w)).
Proof.
  revert x w; induction evs as [|e evs IH]; intros x w Hx; simpl; [exact Hx|].
  rewrite bind_run. apply IH. now apply Inv_step.
Qed.

Lemma resume_folders {B : StringBuiltins} (t : Task) (x : Sys) (w : World) :
  folders (app (fst (resume t x w))) = folders (app x).
Proof.
  destruct t; unfold resume; rewrite bind_run; unfold ret; simpl fst.
  - apply handleFiles_frame.
  - apply handleSaveGenerated_frame.
  - apply fold_perform_folders.
Qed.

Lemma step_folders {B : StringBuiltins} (e : Event) (x : Sys) (w : World) :
  exists more, folders (app (fst (step e x w))) = folders (app x) ++ more.
Proof.
  assert (Hsame : forall l, l = folders (app x) ->
                    exists more, l = folders (app x) ++ more).
  { intros l ->. exists []. now rewrite app_nil_r. }
  destruct e; simpl; try (apply Hsame; reflexivity).
  - apply Hsame. unfold handleDrag. destruct (_ || _); [reflexivity|].
    now destruct (String.eqb ty "dragleave").
  - apply Hsame. now destruct files.
  - apply Hsame. now destruct files.
  - apply Hsame. now destruct (nth_error (folders (app x)) n).
  - apply Hsame. now destruct (truthy (newFolderInput (app x))).
  - destruct (addFolder_cases (app x)) as [(_ & _ & ->)|(_ & ->)].
    + now eexists.
    + now apply Hsame.
  - apply Hsame. now destruct (nth_error (filteredItems (app x)) n).
  - apply Hsame. destruct (selectedItem (app x)); simpl; [|reflexivity].
    apply fold_perform_folders.
  - apply Hsame. destruct (selectedItem (app x)); simpl; [|reflexivity].
    destruct (nth_error (folders (app x)) n); simpl; [|reflexivity].
    apply handleUpdateItem_keeps_folders.
  - apply Hsame. now destruct (selectedItem (app x)).
  - apply Hsame. destruct (selectedItem (app x)); simpl; [|reflexivity].
    apply fold_perform_folders.
  - apply Hsame. destruct (nth_error (tasks x) n); [|reflexivity].
    now rewrite resume_folders.
Qed.

Lemma run_folders {B : StringBuiltins} (evs : list Event) (x : Sys) (w : World) :
  exists more, folders (app (fst (run evs x w))) = folders (app x) ++ more.
Proof.
  revert x w; induction evs as [|e evs IH]; intros x w; simpl.
  - exists []. now rewrite app_nil_r.
  - rewrite bind_run.
    destruct (IH (fst (step e x w)) (snd (step e x w))) as [more2 H2].
    destruct (step_folders e x w) as [more1 H1].
    exists (more1 ++ more2). now rewrite H2, H1, app_assoc.
Qed.

(** C7: [addFolder] appends the trimmed input to [folders] when it is not
    empty and not yet in [folders], and otherwise changes nothing; so, from
    the four default folders on, whatever happens, the names in [folders]
    are pairwise distinct and [folders] only grows at its end. *)
Theorem addFolder_keeps_folders_distinct {B : StringBuiltins} :
  (forall s,
     let x := trim (newFolderInput s) in
     (x <> EmptyString /\ ~ In x (folders s) -> folders (addFolder s) = folders s ++ [x]) /\
     (x = EmptyString \/ In x (folders s) -> addFolder s = s)) /\
  folders initial = ["Genel"; "Favoriler"; "İş"; "Tatil"] /\
  NoDup (folders initial) /\
  (forall evs w, NoDup (folders (app (fst (run evs start w))))) /\
  (forall evs x w,
     exists more, folders (app (fst (run evs x w))) = folders (app x) ++ more).
Proof.
  split; [|split; [reflexivity | split; [apply Inv_start | split]]].
  - intros s x.
    destruct (addFolder_cases s) as [(Hne & Hnotin & E)|(Hor & E)]; fold x in Hne, Hnotin, E || fold x in Hor, E.
    + split; [intros _; now rewrite E|]. intros [H|H]; contradiction.
    + split; [|intros _; exact E]. intros [Hne Hnotin]. destruct Hor; contradiction.
  - intros evs w. apply Inv_run, Inv_start.
  - apply run_folders.
Qed.

(** The theorem at the input ' Aile ' typed into the new-folder field. *)
Lemma addFolder_keeps_folders_distinct_witness :
  let s := setNewFolderInput " Aile " initial in
  folders (addFolder s) = ["Genel"; "Favoriler"; "İş"; "Tatil"; "Aile"].
Proof.
  intro s.
  destruct addFolder_keeps_folders_distinct as [H _].
  destruct (H s) as [H1 _]. rewrite H1; [reflexivity|].
  split; [discriminate|]. simpl. intuition discriminate.
Defined.

(** ** Folders of new items *)

(** C6: in every state the application can reach, the current folder is one
    of [folders] and so is the folder of every item; when a suspended
    [handleFiles] or [handleSaveGenerated] in 'new' mode goes on, the items
    it creates get the folder that was current when it was called, or the
    folder of the original item, and that folder is in [folders] at that
    moment; and no event takes a name out of [folders]. *)
Theorem created_items_have_existing_folder {B : StringBuiltins}
    (evs : list Event) (w0 : World) :
  let x := fst (run evs start w0) in
  In (currentFolder (app x)) (folders (app x)) /\
  Forall (fun item => In (folder item) (folders (app x))) (mediaItems (app x)) /\
  (forall n c files w,
     nth_error (tasks x) n = Some (TFiles c files) ->
     let s' := app (fst (step (EvResume n) x w)) in
     exists added,
       mediaItems s' = added ++ mediaItems (app x) /\
       map file added = filter isMedia files /\
       Forall (fun item => folder item = currentFolder c /\
                           In (folder item) (folders (app x))) added /\
       folders s' = folders (app x)) /\
  (forall n c originalId base64Url newName w,
     nth_error (tasks x) n = Some (TSave c originalId base64Url newName new) ->
     let s' := app (fst (step (EvResume n) x w)) in
     folders s' = folders (app x) /\
     (mediaItems s' = mediaItems (app x) \/
      exists item,
        mediaItems s' = item :: mediaItems (app x) /\
        folder item = match findItem originalId (mediaItems c) with
                      | Some o => folder o
                      | None => currentFolder c
                      end /\
        In (folder item) (folders (app x)))) /\
  (forall e w, incl (folders (app x)) (folders (app (fst (step e x w))))).
Proof.
  intro x. assert (Hx : Inv x) by apply Inv_run, Inv_start.
  pose proof Hx as (Hd & [Hcur Hitems] & Hts).
  split; [exact Hcur|]. split; [exact Hitems|]. split; [|split].
  - intros n c files w Hn s'. subst s'. simpl. rewrite Hn.
    unfold resume. rewrite bind_run. unfold ret. simpl.
    apply nth_error_In in Hn. rewrite Forall_forall in Hts.
    destruct (Hts _ Hn) as [Hc _]. simpl in Hc.
    destruct (newItemsOf_spec (currentFolder c) files w) as [Hmap Hnew].
    exists (fst (newItemsOf (currentFolder c) files w)).
    split; [apply handleFiles_mediaItems|]. split; [exact Hmap|].
    split; [|apply handleFiles_frame].
    eapply Forall_impl; [|exact Hnew]. simpl. intros item ->. now split.
  - intros n c originalId base64Url newName w Hn s'. subst s'. simpl. rewrite Hn.
    unfold resume. rewrite bind_run. unfold ret. simpl.
    apply nth_error_In in Hn. rewrite Forall_forall in Hts.
    destruct (Hts _ Hn) as [Hc Hcitems]. simpl in Hc, Hcitems.
    split; [apply handleSaveGenerated_frame|].
    destruct (handleSaveGenerated_new_items c originalId base64Url newName (app x) w)
      as [H|(item & H & Hfolder)]; [now left|].
    right. exists item. split; [exact H|]. split; [exact Hfolder|].
    rewrite Hfolder.
    destruct (findItem originalId (mediaItems c)) as [o|] eqn:Ho; [|exact Hc].
    apply findItem_In in Ho. rewrite Forall_forall in Hcitems. now apply Hcitems.
  - intros e w a Ha. destruct (step_folders e x w) as [more ->].
    apply in_or_app. now left.
Qed.

(** The theorem after a folder 'Aile' is added and selected and a photo and a
    PDF are dropped: the upload, when it goes on, adds one item, in 'Aile'. *)
Lemma created_items_have_existing_folder_witness :
  let evs := [EvNewFolderInput "Aile"; EvAddFolder; EvFolder 4; EvDrop [photo; report]] in
  let x := fst (run evs start offline) in
  exists item,
    mediaItems (app (fst (step (EvResume 0) x (snd (run evs start offline))))) = [item] /\
    folder item = "Aile" /\ In (folder item) (folders (app x)).
Proof.
  intros evs x.
  destruct (created_items_have_existing_folder evs offline) as (_ & _ & H & _).
  destruct (H 0 _ _ (snd (run evs start offline)) eq_refl)
    as (added & Hitems & Hmap & Hfolder & _).
  destruct added as [|item [|item2 added]]; try discriminate Hmap.
  exists item. split; [exact Hitems|].
  inversion Hfolder as [|? ? [Hf Hin] _]; subst. split; [exact Hf | exact Hin].
Defined.

(** ** The running application never loses an item

    The modal passes [onUpdateItem] a name, a folder or a description, never
    an id; so, event after event, the ids in [mediaItems] stay, and new ones
    come in front. *)

Lemma perform_ids (c : App) (x : Sys) (e : Effect) :
  safeEffect (folders (app x)) e ->
  map id (mediaItems (app (perform c x e))) = map id (mediaItems (app x)).
Proof.
  destruct e; simpl; auto. intros [Hid _]. now apply handleUpdateItem_ids.
Qed.

Lemma fold_perform_ids (c : App) (effects : list Effect) (x : Sys) :
  Forall (safeEffect (folders (app x))) effects ->
  map id (mediaItems (app (fold_left (perform c) effects x))) =
  map id (mediaItems (app x)).
Proof.
  revert x; induction effects as [|e effects IH]; intros x H; simpl; auto.
  inversion H; subst. rewrite IH; [now apply perform_ids|].
  now rewrite perform_folders.
Qed.

Lemma resume_ids {B : StringBuiltins} (t : Task) (x : Sys) (w : World) :
  exists added,
    map id (mediaItems (app (fst (resume t x w)))) = added ++ map id (mediaItems (app x)).
Proof.
  destruct t as [c files|c originalId base64Url n mode|c item customPrompt m];
    unfold resume; rewrite bind_run; unfold ret; simpl fst.
  - simpl. rewrite handleFiles_mediaItems, map_app. now eexists.
  - simpl. apply handleSaveGenerated_ids.
  - exists []. simpl. apply fold_perform_ids, handleAction_safe.
Qed.

Lemma step_ids {B : StringBuiltins} (e : Event) (x : Sys) (w : World) :
  exists added,
    map id (mediaItems (app (fst (step e x w)))) = added ++ map id (mediaItems (app x)).
Proof.
  assert (Hsame : forall l, l = map id (mediaItems (app x)) ->
                    exists added, l = added ++ map id (mediaItems (app x))).
  { intros l ->. now exists []. }
  destruct e; simpl; try (apply Hsame; reflexivity).
  - apply Hsame. unfold handleDrag. destruct (_ || _); [reflexivity|].
    now destruct (String.eqb ty "dragleave").
  - apply Hsame. now destruct files.
  - apply Hsame. now destruct files.
  - apply Hsame. now destruct (nth_error (folders (app x)) n).
  - apply Hsame. now destruct (truthy (newFolderInput (app x))).
  - apply Hsame. unfold addFolder. now destruct (_ && _).
  - apply Hsame. now destruct (nth_error (filteredItems (app x)) n).
  - apply Hsame. destruct (selectedItem (app x)); simpl; [|reflexivity].
    apply fold_perform_ids, handleRename_safe.
  - apply Hsame. destruct (selectedItem (app x)); simpl; [|reflexivity].
    destruct (nth_error (folders (app x)) n); simpl; [|reflexivity].
    now apply handleUpdateItem_ids.
  - apply Hsame. now destruct (selectedItem (app x)).
  - apply Hsame. destruct (selectedItem (app x)); simpl; [|reflexivity].
    apply fold_perform_ids, executeSave_safe.
  - destruct (nth_error (tasks x) n) as [t|]; [|now apply Hsame].
    apply (resume_ids t {| app := app x; tasks := remove_nth n (tasks x) |} w).
Qed.

Lemma events_never_remove_ids {B : StringBuiltins} (evs : list Event) (x : Sys) (w : World) :
  exists added,
    map id (mediaItems (app (fst (run evs x w)))) = added ++ map id (mediaItems (app x)).
Proof.
  revert x w; induction evs as [|e evs IH]; intros x w; simpl.
  - now exists [].
  - rewrite bind_run.
    destruct (IH (fst (step e x w)) (snd (step e x w))) as [a2 H2].
    destruct (step_ids e x w) as [a1 H1].
    exists (a2 ++ a1). now rewrite H2, H1, app_assoc.
Qed.

Lemma keepsItems_prefix (l l' : list MediaItem) (added : list string) :
  map id l' = added ++ map id l -> keepsItems l l'.
Proof.
  intro H. split.
  - intros i Hi. rewrite H. apply in_or_app. now right.
  - rewrite <- (length_map id l), <- (length_map id l'), H, length_app. lia.
Qed.

(** C2: media items are never removed.  After [handleFiles], after
    [handleSaveGenerated] in 'new' and in 'overwrite' mode, after
    [handleUpdateItem] with each of the updates it is called with (a name, a
    folder, a description) and after [addFolder], every id that was in
    [mediaItems] is still there and [mediaItems] is not shorter; so it is
    after every event of the running application, and after every sequence
    of events. *)
Theorem items_never_removed {B : StringBuiltins} :
  (forall c files s w,
     keepsItems (mediaItems s) (mediaItems (fst (handleFiles c files s w)))) /\
  (forall c originalId base64Url newName mode s w,
     keepsItems (mediaItems s)
       (mediaItems (fst (handleSaveGenerated c originalId base64Url newName mode s w)))) /\
  (forall c id0 newName s,
     keepsItems (mediaItems s) (mediaItems (handleUpdateItem c id0 (justName newName) s))) /\
  (forall c id0 value s,
     keepsItems (mediaItems s) (mediaItems (handleUpdateItem c id0 (justFolder value) s))) /\
  (forall c id0 analysis s,
     keepsItems (mediaItems s)
       (mediaItems (handleUpdateItem c id0 (justAiDescription analysis) s))) /\
  (forall c id0 updates s,
     length (mediaItems (handleUpdateItem c id0 updates s)) = length (mediaItems s)) /\
  (forall s, mediaItems (addFolder s) = mediaItems s) /\
  (forall e x w,
     keepsItems (mediaItems (app x)) (mediaItems (app (fst (step e x w))))) /\
  (forall evs x w,
     keepsItems (mediaItems (app x)) (mediaItems (app (fst (run evs x w))))).
Proof.
  assert (Hupd : forall c id0 updates s,
            p_id updates = None ->
            keepsItems (mediaItems s) (mediaItems (handleUpdateItem c id0 updates s))).
  { intros c id0 updates s Hid. apply (keepsItems_prefix _ _ []).
    now apply handleUpdateItem_ids. }
  repeat split.
  - intros i Hi. rewrite handleFiles_mediaItems, map_app. apply in_or_app. now right.
  - rewrite handleFiles_mediaItems, length_app. lia.
  - destruct (handleSaveGenerated_ids c originalId base64Url newName mode s w) as [added H].
    now apply (keepsItems_prefix _ _ added).
  - destruct (handleSaveGenerated_ids c originalId base64Url newName mode s w) as [added H].
    now apply (keepsItems_prefix _ _ added).
  - now apply (Hupd c id0 (justName newName) s).
  - now apply (Hupd c id0 (justName newName) s).
  - now apply (Hupd c id0 (justFolder value) s).
  - now apply (Hupd c id0 (justFolder value) s).
  - now apply (Hupd c id0 (justAiDescription analysis) s).
  - now apply (Hupd c id0 (justAiDescription analysis) s).
  - intros c id0 updates s. now rewrite handleUpdateItem_mediaItems, length_map.
  - intro s. unfold addFolder. now destruct (_ && _).
  - destruct (step_ids e x w) as [added H]. now apply (keepsItems_prefix _ _ added).
  - destruct (step_ids e x w) as [added H]. now apply (keepsItems_prefix _ _ added).
  - destruct (events_never_remove_ids evs x w) as [added H].
    now apply (keepsItems_prefix _ _ added).
  - destruct (events_never_remove_ids evs x w) as [added H].
    now apply (keepsItems_prefix _ _ added).
Qed.

(** * Further properties of the code *)

(** ** Reading a file *)

Lemma upto_comma_commaFree (s : string) : commaFree s = true -> upto_comma s = s.
Proof.
  induction s as [|ch s IH]; simpl; [reflexivity|].
  destruct (Ascii.eqb ch ","); simpl; [discriminate|]. intro H. now rewrite IH.
Qed.

Lemma split_comma_1_head (head rest : string) :
  commaFree head = true ->
  split_comma_1 (head ++ String "," rest) = Some (upto_comma rest).
Proof.
  induction head as [|ch head IH]; simpl; [reflexivity|].
  destruct (Ascii.eqb ch ","); simpl; [discriminate | exact IH].
Qed.

Lemma split_comma_1_none (s : string) : split_comma_1 s = None <-> commaFree s = true.
Proof.
  induction s as [|ch s IH]; simpl; [tauto|].
  destruct (Ascii.eqb ch ","); simpl; [split; discriminate | exact IH].
Qed.

(** [fileToBase64] gives back the payload of the data URL the reader has
    produced: when the URL is a comma-free head, a comma and a comma-free
    payload, the result is that payload; the host is left as it was. *)
Theorem fileToBase64_payload (f : File) (w : World) (head payload : string) :
  commaFree head = true ->
  commaFree payload = true ->
  readAsDataURL w f = inr (head ++ String "," payload)%string ->
  fileToBase64 f w = (inr (Some payload), w).
Proof.
  intros Hh Hp Hr. unfold fileToBase64. rewrite Hr.
  now rewrite (split_comma_1_head _ _ Hh), (upto_comma_commaFree _ Hp).
Qed.

Lemma fileToBase64_payload_witness :
  fileToBase64 photo careful = (inr (Some "AAAA"), careful).
Proof.
  apply (fileToBase64_payload photo careful "data:image/jpeg;base64" "AAAA");
    reflexivity.
Defined.

(** [fileToBase64] resolves with [undefined] exactly when the reader's result
    has no comma, and rejects exactly when the reader fails, with the reader's
    error. *)
Theorem fileToBase64_edges (f : File) (w : World) :
  (fst (fileToBase64 f w) = inr None <->
   exists result, readAsDataURL w f = inr result /\ commaFree result = true) /\
  (forall error, fst (fileToBase64 f w) = inl error <-> readAsDataURL w f = inl error) /\
  snd (fileToBase64 f w) = w.
Proof.
  unfold fileToBase64. simpl. split; [|split; [|reflexivity]].
  - destruct (readAsDataURL w f) as [e|result]; split.
    + discriminate.
    + intros (r & H & _). discriminate.
    + intro H. exists result. split; [reflexivity|].
      apply split_comma_1_none. congruence.
    + intros (r & H & Hc). injection H as <-.
      apply split_comma_1_none in Hc. now rewrite Hc.
  - intro error. destruct (readAsDataURL w f) as [e|result]; split; congruence.
Qed.

(** ** The two calls to the model *)

(** [editImageWithGemini] and [analyzeVideoWithGemini] send one request to
    the model when the file could be read and none when it could not; they
    touch nothing else of the host. *)
Theorem service_requests (f : File) (p : string) (w : World) :
  let count := match readAsDataURL w f with
               | inl _ => calls w
               | inr _ => S (calls w)
               end in
  calls (snd (editImageWithGemini f p w)) = count /\
  calls (snd (analyzeVideoWithGemini f p w)) = count /\
  tick (snd (editImageWithGemini f p w)) = tick w /\
  tick (snd (analyzeVideoWithGemini f p w)) = tick w.
Proof.
  rewrite editImageWithGemini_run, analyzeVideoWithGemini_run.
  destruct (readAsDataURL w f); simpl; auto.
Qed.

(** An error that [editImageWithGemini] throws is the reader's error, or the
    error of the request, or, when the model has answered, the error 'Görsel
    oluşturulamadı. ...': the [catch] passes errors on as they are. *)
Theorem editImageWithGemini_errors (f : File) (p : string) (w : World) (error : JSError) :
  fst (editImageWithGemini f p w) = inl error ->
  readAsDataURL w f = inl error \/
  (exists result,
     readAsDataURL w f = inr result /\
     (generateContent_at w (calls w) (editRequest f p (split_comma_1 result)) = inl error \/
      exists response,
        generateContent_at w (calls w) (editRequest f p (split_comma_1 result)) =
          inr response /\
        firstInline (match firstParts response with Some ps => ps | None => [] end) = None /\
        error = noImageError)).
Proof.
  rewrite editImageWithGemini_run.
  destruct (readAsDataURL w f) as [e|result]; simpl; [intro H; left; congruence|].
  intro H. right. exists result. split; [reflexivity|].
  destruct (generateContent_at w (calls w) _) as [e|response]; [left; congruence|].
  right. exists response. split; [reflexivity|].
  unfold imageOfResponse in H.
  destruct (firstParts response) as [ps|]; simpl.
  - destruct (firstInline ps); [discriminate|]. split; congruence.
  - split; congruence.
Qed.

Lemma editImageWithGemini_errors_witness :
  readAsDataURL offline photo = inl {| message := "Failed to fetch" |} \/
  exists result,
    readAsDataURL offline photo = inr result /\
    (generateContent_at offline (calls offline)
       (editRequest photo "Brighter" (split_comma_1 result)) =
       inl {| message := "Failed to fetch" |} \/
     exists response,
       generateContent_at offline (calls offline)
         (editRequest photo "Brighter" (split_comma_1 result)) = inr response /\
       firstInline (match firstParts response with Some ps => ps | None => [] end) = None /\
       {| message := "Failed to fetch" |} = noImageError).
Proof.
  apply (editImageWithGemini_errors photo "Brighter" offline). reflexivity.
Defined.

(** What [analyzeVideoWithGemini] returns is never the empty string: it is
    the text of the response when there is one, and 'Video analiz edilemedi.'
    otherwise; what it throws is the reader's or the request's error. *)
Theorem analyzeVideoWithGemini_result (f : File) (p : string) (w : World) :
  (forall analysis,
     fst (analyzeVideoWithGemini f p w) = inr analysis ->
     analysis <> EmptyString /\
     exists result response,
       readAsDataURL w f = inr result /\
       generateContent_at w (calls w) (analyzeRequest f p (split_comma_1 result)) =
         inr response /\
       (response_text response = Some analysis \/
        analysis = "Video analiz edilemedi." /\
        (response_text response = None \/ response_text response = Some EmptyString))) /\
  (forall error,
     fst (analyzeVideoWithGemini f p w) = inl error ->
     readAsDataURL w f = inl error \/
     exists result,
       readAsDataURL w f = inr result /\
       generateContent_at w (calls w) (analyzeRequest f p (split_comma_1 result)) =
         inl error).
Proof.
  rewrite analyzeVideoWithGemini_run.
  destruct (readAsDataURL w f) as [e|result]; simpl.
  - split; [discriminate|]. intros error H. left. congruence.
  - destruct (generateContent_at w (calls w) _) as [e|response] eqn:Hg; simpl.
    + split; [discriminate|]. intros error H. right. exists result. split; congruence.
    + split; [|discriminate]. intros analysis H. injection H as <-.
      split.
      * unfold or_else. destruct (response_text response) as [[|ch t]|]; discriminate.
      * exists result, response. split; [reflexivity|]. split; [exact Hg|].
        unfold or_else. destruct (response_text response) as [[|ch t]|]; simpl; auto.
Qed.

Lemma analyzeVideoWithGemini_result_witness :
  fst (analyzeVideoWithGemini clip "What happens?" online) = inr "Here you are" /\
  "Here you are" <> EmptyString.
Proof.
  split; [reflexivity|].
  apply (analyzeVideoWithGemini_result clip "What happens?" online). reflexivity.
Defined.

(** ** The modal: asking the model *)


Lemma handleAction_nonblank {B : StringBuiltins}
    (item : MediaItem) (customPrompt : option string) (m : Modal) (w : World) :
  let p := or_else customPrompt (prompt m) in
  truthy (trim p) = true ->
  handleAction item customPrompt m w =
  (match fst (actionBody item p (setStatus PROCESSING m) w) with
   | inr done => done
   | inl _ => (setStatus ERROR (setResultText (Some genericErrorMessage)
                                  (setStatus PROCESSING m)), [])
   end, snd (actionBody item p (setStatus PROCESSING m) w)).
Proof.
  intros p Hp. unfold handleAction. fold p. rewrite Hp. cbn [negb]. cbv beta iota zeta.
  rewrite bind_run. now destruct (fst (actionBody item p (setStatus PROCESSING m) w)).
Qed.

(** With a prompt that is blank after trimming ([customPrompt], or the typed
    prompt when [customPrompt] is missing or empty), [handleAction] does
    nothing: the modal stays as it is, no prop is called and the host is not
    asked for anything. *)
Theorem handleAction_blank_prompt {B : StringBuiltins}
    (item : MediaItem) (customPrompt : option string) (m : Modal) (w : World) :
  truthy (trim (or_else customPrompt (prompt m))) = false ->
  handleAction item customPrompt m w = ((m, []), w).
Proof. intro H. unfold handleAction. now rewrite H. Qed.

Lemma handleAction_blank_prompt_witness :
  let m := setPrompt "   " freshModal in
  handleAction movie (Some EmptyString) m offline = ((m, []), offline).
Proof.
  intro m. apply (handleAction_blank_prompt movie (Some EmptyString) m offline).
  reflexivity.
Defined.

(** When the edit of an image succeeds, [handleAction] keeps the returned
    URL in [generatedImageUrl], shows the success text with status SUCCESS,
    leaves the rest of the modal alone and calls no prop: the gallery is as
    it was until the image is saved. *)
Theorem handleAction_image_success {B : StringBuiltins}
    (item : MediaItem) (customPrompt : option string) (m : Modal)
    (w : World) (newImageUrl : string) :
  let p := or_else customPrompt (prompt m) in
  type item = image ->
  truthy (trim p) = true ->
  fst (editImageWithGemini (file item) p w) = inr newImageUrl ->
  let m' := fst (fst (handleAction item customPrompt m w)) in
  generatedImageUrl m' = Some newImageUrl /\
  status m' = SUCCESS /\
  resultText m' = Some editedMessage /\
  (prompt m', tempName m', saveName m', isEditingName m', showSaveOptions m') =
  (prompt m, tempName m, saveName m, isEditingName m, showSaveOptions m) /\
  snd (fst (handleAction item customPrompt m w)) = [] /\
  (forall c x, fst (resume (TAction c item customPrompt m) x w) = x).
Proof.
  intros p Hty Hp Hedit m'. subst m'.
  assert (Hr : fst (handleAction item customPrompt m w) =
               (setStatus SUCCESS
                  (setResultText (Some editedMessage)
                     (setGeneratedImageUrl (Some newImageUrl) (setStatus PROCESSING m))),
                [])).
  { rewrite (handleAction_nonblank _ _ _ _ Hp). fold p. simpl fst.
    unfold actionBody, await. rewrite Hty, bind_run, Hedit. reflexivity. }
  rewrite Hr. simpl. repeat split.
  intros c x. unfold resume. rewrite bind_run, Hr. reflexivity.
Qed.

Lemma handleAction_image_success_witness :
  let item := itemOf "a" image photo "Genel" in
  generatedImageUrl
    (fst (fst (handleAction item (Some "Make it brighter") freshModal online))) =
  Some "data:image/png;base64,QUJD".
Proof.
  intro item.
  apply (handleAction_image_success item (Some "Make it brighter") freshModal online
           "data:image/png;base64,QUJD"); reflexivity.
Defined.



(** ** The modal: saving *)

Lemma executeSave_cases {B : StringBuiltins}
    (item : MediaItem) (mode : SaveMode) (m : Modal) :
  (exists g,
     generatedImageUrl m = Some g /\ g <> EmptyString /\
     trim (saveName m) <> EmptyString /\
     executeSave item mode m =
     (match mode with
      | overwrite => setGeneratedImageUrl None (setShowSaveOptions false m)
      | new => setShowSaveOptions false m
      end,
      [OnSaveGenerated (id item) g (saveName m) mode;
       Alert (match mode with
              | overwrite => "Görsel güncellendi!"
              | new => "Yeni görsel galeriye eklendi!"
              end)])) \/
  (~ (exists g, generatedImageUrl m = Some g /\ g <> EmptyString /\
                trim (saveName m) <> EmptyString) /\
   executeSave item mode m = (m, [])).
Proof.
  unfold executeSave. destruct (generatedImageUrl m) as [g|] eqn:Hg.
  - destruct (truthy g) eqn:Ht; [destruct (truthy (trim (saveName m))) eqn:Hn|]; simpl.
    + left. exists g. apply truthy_iff in Ht. apply truthy_iff in Hn.
      repeat split; auto. now destruct mode.
    + right. split; [|reflexivity].
      intros (g' & _ & _ & Hne). apply truthy_iff in Hne. congruence.
    + right. split; [|reflexivity].
      intros (g' & Hg' & Hne & _). injection Hg' as <-.
      apply truthy_iff in Hne. congruence.
  - right. split; [|reflexivity]. intros (g' & Hg' & _). discriminate.
Qed.

(** [executeSave] calls [onSaveGenerated] exactly when there is a generated
    image and the save name is not blank, once, with the item's id, the
    image and the untrimmed name.  After an 'overwrite' the generated image
    is dropped, so a further save does nothing; after a 'new' it is kept, so
    the same save can be repeated. *)
Theorem executeSave_effects {B : StringBuiltins}
    (item : MediaItem) (mode mode' : SaveMode) (m : Modal) :
  (snd (executeSave item mode m) <> [] <->
   exists g, generatedImageUrl m = Some g /\ g <> EmptyString /\
             trim (saveName m) <> EmptyString) /\
  (snd (executeSave item mode m) = [] \/
   exists g msg,
     generatedImageUrl m = Some g /\
     snd (executeSave item mode m) =
       [OnSaveGenerated (id item) g (saveName m) mode; Alert msg]) /\
  snd (executeSave item mode' (fst (executeSave item overwrite m))) = [] /\
  snd (executeSave item new (fst (executeSave item new m))) =
  snd (executeSave item new m).
Proof.
  split; [|split; [|split]].
  - destruct (executeSave_cases item mode m) as [(g & Hg & Hne & Hn & ->)|(Hno & ->)]; simpl.
    + split; [intros _; now exists g | intros _; discriminate].
    + split; [intro H; now elim H | intro H; now elim Hno].
  - destruct (executeSave_cases item mode m) as [(g & Hg & Hne & Hn & ->)|(Hno & ->)]; simpl.
    + right. now eexists g, _.
    + now left.
  - destruct (executeSave_cases item overwrite m) as [(g & Hg & Hne & Hn & ->)|(Hno & ->)];
      simpl fst.
    + reflexivity.
    + destruct (executeSave_cases item mode' m) as [(g & Hg & Hne & Hn & _)|(_ & ->)];
        [|reflexivity].
      elim Hno. now exists g.
  - destruct (executeSave_cases item new m) as [(g & Hg & Hne & Hn & ->)|(Hno & ->)];
      simpl fst; simpl snd.
    + unfold executeSave. simpl. rewrite Hg.
      apply truthy_iff in Hne. apply truthy_iff in Hn. now rewrite Hne, Hn.
    + destruct (executeSave_cases item new m) as [(g & Hg & Hne & Hn & _)|(_ & ->)];
        [|reflexivity].
      elim Hno. now exists g.
Qed.

(** ** Saving a generated image *)

Lemma handleSaveGenerated_failed
    (c : App) (originalId base64Url n : string) (mode : SaveMode) (s : App) (w : World)
    (error : JSError) :
  fetch_blob w base64Url = inl error ->
  handleSaveGenerated c originalId base64Url n mode s w = (s, w).
Proof.
  intro H. unfold handleSaveGenerated. rewrite bind_run.
  unfold base64ToBlob at 1. simpl. now rewrite H.
Qed.

(** In 'new' mode [handleSaveGenerated] puts one item in front of
    [mediaItems] and changes nothing else: an image flagged as generated,
    with the given name, a PNG file named after it, no description, and the
    folder of the first item that had the original id in the render the
    handler was called in (the folder current in that render when there was
    none).  When the image cannot be fetched, state and host stay as they
    are. *)
Theorem handleSaveGenerated_new_item
    (c : App) (originalId base64Url newName : string) (s : App) (w : World) :
  let r := handleSaveGenerated c originalId base64Url newName new s w in
  match fetch_blob w base64Url with
  | inl _ => r = (s, w)
  | inr blob =>
      exists item,
        fst r = setMediaItems (fun prev => item :: prev) s /\
        type item = image /\ name item = newName /\
        file item = {| file_name := (newName ++ ".png")%string;
                       file_type := "image/png";
                       file_bytes := blob_bytes blob |} /\
        isGenerated item = Some true /\
        aiDescription item = None /\ thumbnailUrl item = None /\
        (exists k, tick w <= k /\ id item = uuid_at w k) /\
        folder item = match findItem originalId (mediaItems c) with
                      | Some o => folder o
                      | None => currentFolder c
                      end
  end.
Proof.
  intro r. subst r. destruct (fetch_blob w base64Url) as [e|blob] eqn:Hblob.
  - now apply handleSaveGenerated_failed with (error := e).
  - unfold handleSaveGenerated. rewrite bind_run. unfold base64ToBlob at 1. simpl.
    rewrite Hblob. rewrite !bind_run. unfold ret. simpl.
    eexists. split; [reflexivity|]. simpl. repeat split.
    exists (S (tick w)). split; [lia | reflexivity].
Qed.

Lemma handleSaveGenerated_overwrite_run
    (c : App) (originalId base64Url n : string) (s : App) (w : World) (blob : Blob) :
  fetch_blob w base64Url = inr blob ->
  let u := objectURL_at w (tick w) in
  let f := pngFile blob n in
  fst (handleSaveGenerated c originalId base64Url n overwrite s w) =
  setSelectedItem
    (fun prev => match prev with
                 | Some p => Some (spread p (generated u f n None))
                 | None => None
                 end)
    (setMediaItems
       (fun _ => fst (mapM (overwriteItem originalId u f n) (mediaItems s) (next_tick w)))
       s).
Proof.
  intros Hblob u f. unfold handleSaveGenerated. rewrite bind_run.
  unfold base64ToBlob at 1. simpl. rewrite Hblob.
  unfold setMediaItemsM. rewrite !bind_run. reflexivity.
Qed.

(** In 'overwrite' mode, once the image is fetched, the selected item takes
    the new url, file and name and is flagged as generated whether or not its
    id is the target id; it keeps its id, folder, type and description, and
    also its timestamp, while the overwritten items of [mediaItems] get a new
    one.  Folders and filters are not touched. *)
Theorem handleSaveGenerated_overwrite_selected
    (c : App) (originalId base64Url newName : string) (s : App) (w : World)
    (blob : Blob) (p : MediaItem) :
  fetch_blob w base64Url = inr blob ->
  selectedItem s = Some p ->
  let s' := fst (handleSaveGenerated c originalId base64Url newName overwrite s w) in
  exists p',
    selectedItem s' = Some p' /\
    url p' = objectURL_at w (tick w) /\ file p' = pngFile blob newName /\
    name p' = newName /\ isGenerated p' = Some true /\
    timestamp p' = timestamp p /\
    (id p', type p', folder p', aiDescription p', thumbnailUrl p') =
    (id p, type p, folder p, aiDescription p, thumbnailUrl p) /\
    (folders s', currentFolder s', searchQuery s', typeFilter s') =
    (folders s, currentFolder s, searchQuery s, typeFilter s).
Proof.
  intros Hblob Hsel s'. subst s'.
  rewrite (handleSaveGenerated_overwrite_run _ _ _ _ _ _ _ Hblob). simpl.
  rewrite Hsel. eexists. split; [reflexivity|]. simpl. repeat split.
Qed.

Lemma handleSaveGenerated_overwrite_selected_witness :
  let a := itemOf "a" image photo "Genel" in
  let b := itemOf "b" image photo "Genel" in
  let s := withItems [a; b] (Some b) in
  exists p',
    selectedItem (fst (handleSaveGenerated s "a" "data:x" "new" overwrite s careful)) =
      Some p' /\
    id p' = "b" /\ name p' = "new".
Proof.
  intros a b s.
  destruct (handleSaveGenerated_overwrite_selected s "a" "data:x" "new" s careful
              {| blob_type := "image/png"; blob_bytes := "data:x" |} b eq_refl eq_refl)
    as (p' & H1 & _ & _ & H2 & _ & _ & H3 & _).
  exists p'. split; [exact H1|]. split; [|exact H2].
  now injection H3.
Defined.

(** ** Updates in sequence *)

Ltac by_fields :=
  unfold spread, mergeUpdates, later, over; simpl; f_equal;
  repeat match goal with
         | |- context [match ?o with Some _ => _ | None => _ end] => destruct o
         end; reflexivity.

Lemma spread_spread (item : MediaItem) (u v : PartialMediaItem) :
  spread (spread item u) v = spread item (mergeUpdates u v).
Proof. by_fields. Qed.

Lemma spread_twice (item : MediaItem) (u : PartialMediaItem) :
  spread (spread item u) u = spread item u.
Proof. by_fields. Qed.

Lemma id_spread (item : MediaItem) (u : PartialMediaItem) :
  p_id u = None -> id (spread item u) = id item.
Proof. intro H. unfold spread. simpl. now rewrite H. Qed.

(** [handleUpdateItem] applied twice with the same arguments gives what it
    gives applied once. *)
Theorem handleUpdateItem_idempotent
    (c : App) (id0 : string) (updates : PartialMediaItem) (s : App) :
  handleUpdateItem c id0 updates (handleUpdateItem c id0 updates s) =
  handleUpdateItem c id0 updates s.
Proof.
  assert (Hl : forall l,
            map (fun item => if String.eqb (id item) id0 then spread item updates else item)
              (map (fun item => if String.eqb (id item) id0 then spread item updates else item) l)
            = map (fun item => if String.eqb (id item) id0 then spread item updates else item) l).
  { intro l. rewrite map_map. apply map_ext. intro item.
    destruct (String.eqb (id item) id0) eqn:E; [|now rewrite E].
    destruct (String.eqb (id (spread item updates)) id0); [apply spread_twice | reflexivity]. }
  unfold handleUpdateItem. destruct (selectedItem c) as [sel|].
  - destruct (String.eqb (id sel) id0); unfold setSelectedItem, setMediaItems; simpl;
      rewrite Hl; [|reflexivity].
    destruct (selectedItem s) as [p|]; [|reflexivity]. now rewrite spread_twice.
  - unfold setMediaItems. simpl. now rewrite Hl.
Qed.

(** Updates of two different ids, neither with an [id] key, can be made in
    either order. *)
Theorem handleUpdateItem_commute
    (c : App) (a b : string) (u v : PartialMediaItem) (s : App) :
  a <> b -> p_id u = None -> p_id v = None ->
  handleUpdateItem c a u (handleUpdateItem c b v s) =
  handleUpdateItem c b v (handleUpdateItem c a u s).
Proof.
  intros Hab Hu Hv.
  assert (Hl : forall l,
            map (fun item => if String.eqb (id item) a then spread item u else item)
              (map (fun item => if String.eqb (id item) b then spread item v else item) l)
            = map (fun item => if String.eqb (id item) b then spread item v else item)
                (map (fun item => if String.eqb (id item) a then spread item u else item) l)).
  { intro l. rewrite !map_map. apply map_ext. intro item. cbv beta.
    destruct (String.eqb (id item) a) eqn:Ea; destruct (String.eqb (id item) b) eqn:Eb;
      rewrite ?(id_spread _ _ Hu), ?(id_spread _ _ Hv), ?Ea, ?Eb; try reflexivity.
    apply String.eqb_eq in Ea, Eb. congruence. }
  unfold handleUpdateItem. destruct (selectedItem c) as [sel|].
  - destruct (String.eqb (id sel) a) eqn:Ea; destruct (String.eqb (id sel) b) eqn:Eb;
      unfold setSelectedItem, setMediaItems; simpl; rewrite Hl; try reflexivity.
    apply String.eqb_eq in Ea, Eb. congruence.
  - unfold setMediaItems. simpl. now rewrite Hl.
Qed.

Lemma handleUpdateItem_commute_witness :
  let a := itemOf "a" image photo "Genel" in
  let s := withItems [a; movie] (Some a) in
  handleUpdateItem s "a" (justName "dog.jpg") (handleUpdateItem s "v" (justFolder "Tatil") s) =
  handleUpdateItem s "v" (justFolder "Tatil") (handleUpdateItem s "a" (justName "dog.jpg") s).
Proof.
  intros a s. apply (handleUpdateItem_commute s "a" "v"); [discriminate | reflexivity..].
Defined.

(** Two updates of the same id, the first without an [id] key, leave in
    [mediaItems] what one update with the keys of both does, the second
    winning where both have a key; so of two renames the last one stays. *)
Theorem handleUpdateItem_last_wins
    (c1 c2 c : App) (id0 : string) (u v : PartialMediaItem) (s : App) :
  p_id u = None ->
  mediaItems (handleUpdateItem c2 id0 v (handleUpdateItem c1 id0 u s)) =
  mediaItems (handleUpdateItem c id0 (mergeUpdates u v) s) /\
  forall n1 n2,
    u = justName n1 -> v = justName n2 ->
    mediaItems (handleUpdateItem c2 id0 v (handleUpdateItem c1 id0 u s)) =
    mediaItems (handleUpdateItem c id0 (justName n2) s).
Proof.
  intro Hu.
  assert (H : mediaItems (handleUpdateItem c2 id0 v (handleUpdateItem c1 id0 u s)) =
              mediaItems (handleUpdateItem c id0 (mergeUpdates u v) s)).
  { rewrite !handleUpdateItem_mediaItems, map_map. apply map_ext. intro item.
    destruct (String.eqb (id item) id0) eqn:E; [|now rewrite E].
    rewrite (id_spread _ _ Hu), E. apply spread_spread. }
  split; [exact H|]. intros n1 n2 -> ->. exact H.
Qed.

Lemma handleUpdateItem_last_wins_witness :
  let a := itemOf "a" image photo "Genel" in
  let s := withItems [a] (Some a) in
  map name (mediaItems (handleUpdateItem s "a" (justName "two")
                          (handleUpdateItem s "a" (justName "one") s))) = ["two"].
Proof.
  intros a s.
  destruct (handleUpdateItem_last_wins s s s "a" (justName "one") (justName "two") s eq_refl)
    as [_ H].
  rewrite (H "one" "two" eq_refl eq_refl). reflexivity.
Defined.

(** ** What the grid and the sidebar show *)

Lemma matches_same {B : StringBuiltins} (s s' : App) (item : MediaItem) :
  currentFolder s' = currentFolder s -> typeFilter s' = typeFilter s ->
  searchQuery s' = searchQuery s ->
  matches s' item = matches s item.
Proof. unfold matches. now intros -> -> ->. Qed.

Lemma matches_unfiltered {B : StringBuiltins} (s : App) (item : MediaItem) :
  typeFilter s = all -> searchQuery s = EmptyString ->
  matches s item = String.eqb (folder item) (currentFolder s).
Proof.
  intros Ht Hq. unfold matches. rewrite Ht, Hq, toLowerCase_empty. simpl.
  assert (H : includes (toLowerCase (name item)) EmptyString = true).
  { apply includes_iff. now exists EmptyString, (toLowerCase (name item)). }
  rewrite H. now rewrite !andb_true_r.
Qed.

(** With the type filter on 'all' and an empty search, the grid shows the
    items of the current folder, all of them, as many as the sidebar counts
    for that folder. *)
Theorem filteredItems_unfiltered {B : StringBuiltins} (s : App) :
  typeFilter s = all -> searchQuery s = EmptyString ->
  filteredItems s =
    filter (fun i => String.eqb (folder i) (currentFolder s)) (mediaItems s) /\
  length (filteredItems s) = folderCount s (currentFolder s).
Proof.
  intros Ht Hq.
  assert (H : filteredItems s =
              filter (fun i => String.eqb (folder i) (currentFolder s)) (mediaItems s)).
  { unfold filteredItems. apply filter_ext. intro item. now apply matches_unfiltered. }
  split; [exact H|]. now rewrite H.
Qed.

Lemma filteredItems_unfiltered_witness :
  let s := withItems [itemOf "a" image photo "Genel"; itemOf "b" video clip "Tatil"] None in
  length (filteredItems s) = folderCount s "Genel".
Proof.
  intro s. apply (filteredItems_unfiltered s); reflexivity.
Defined.

Lemma matches_setTypeFilter {B : StringBuiltins} (t : TypeFilter) (s : App) (item : MediaItem) :
  matches (setTypeFilter t s) item =
  matchesType t item && matches (setTypeFilter all s) item.
Proof.
  unfold matches. simpl.
  destruct (String.eqb (folder item) (currentFolder s)); simpl;
    destruct (matchesType t item); reflexivity.
Qed.

(** The items shown under 'all' are those shown under 'image' and those
    shown under 'video': every item is in exactly one of the two views. *)
Theorem filteredItems_by_type {B : StringBuiltins} (s : App) :
  length (filteredItems (setTypeFilter all s)) =
  length (filteredItems (setTypeFilter (only image) s)) +
  length (filteredItems (setTypeFilter (only video) s)) /\
  forall item,
    In item (filteredItems (setTypeFilter all s)) <->
    In item (filteredItems (setTypeFilter (only image) s)) \/
    In item (filteredItems (setTypeFilter (only video) s)).
Proof.
  unfold filteredItems. simpl. split.
  - induction (mediaItems s) as [|a l IH]; simpl; [reflexivity|].
    rewrite (matches_setTypeFilter (only image)), (matches_setTypeFilter (only video)).
    unfold matchesType.
    destruct (type a); simpl; destruct (matches (setTypeFilter all s) a); simpl;
      rewrite ?IH; lia.
  - intro item. rewrite !filter_In.
    rewrite (matches_setTypeFilter (only image)), (matches_setTypeFilter (only video)).
    unfold matchesType.
    destruct (type item); simpl; destruct (matches (setTypeFilter all s) item);
      intuition discriminate.
Qed.

Lemma handleUpdateItem_keeps_filters
    (c : App) (id0 : string) (updates : PartialMediaItem) (s : App) :
  typeFilter (handleUpdateItem c id0 updates s) = typeFilter s /\
  searchQuery (handleUpdateItem c id0 updates s) = searchQuery s.
Proof.
  unfold handleUpdateItem. destruct (selectedItem c) as [sel|]; [|now split].
  destruct (String.eqb (id sel) id0); now split.
Qed.

(** Moving an item to a folder other than the current one takes the items
    with its id out of the grid and leaves the rest of the grid as it was. *)
Theorem move_leaves_the_view {B : StringBuiltins}
    (c : App) (id0 value : string) (s : App) :
  value <> currentFolder s ->
  filteredItems (handleUpdateItem c id0 (justFolder value) s) =
  filter (fun it => negb (String.eqb (id it) id0)) (filteredItems s).
Proof.
  intro Hne. apply String.eqb_neq in Hne.
  destruct (handleUpdateItem_keeps_folders c id0 (justFolder value) s) as [_ Hc].
  destruct (handleUpdateItem_keeps_filters c id0 (justFolder value) s) as [Ht Hq].
  unfold filteredItems. rewrite handleUpdateItem_mediaItems.
  rewrite (filter_ext _ _ (fun item => matches_same s _ item Hc Ht Hq)).
  induction (mediaItems s) as [|a l IH]; simpl; [reflexivity|].
  destruct (String.eqb (id a) id0) eqn:E.
  - unfold matches at 1. simpl. rewrite Hne. simpl.
    destruct (matches s a); simpl; rewrite ?E; simpl; exact IH.
  - destruct (matches s a); simpl; rewrite ?E; simpl; now rewrite IH.
Qed.

Lemma move_leaves_the_view_witness :
  let a := itemOf "a" image photo "Genel" in
  let s := withItems [a; movie] (Some a) in
  map id (filteredItems (handleUpdateItem s "a" (justFolder "Tatil") s)) = ["v"].
Proof.
  intros a s. rewrite (move_leaves_the_view s "a" "Tatil" s); [reflexivity | discriminate].
Defined.

Lemma filter_all {A} (keep : A -> bool) (l : list A) :
  Forall (fun a => keep a = true) l -> filter keep l = l.
Proof.
  induction 1 as [|a l Ha _ IH]; simpl; [reflexivity|]. now rewrite Ha, IH.
Qed.

(** Files uploaded while no filter is set show up in the grid at once: the
    new items, one for each image or video file, come first, in the order of
    the files, before what the grid showed. *)
Theorem upload_shows_in_grid {B : StringBuiltins}
    (files : list File) (s : App) (w : World) :
  typeFilter s = all -> searchQuery s = EmptyString ->
  exists newItems,
    map file newItems = filter isMedia files /\
    filteredItems (fst (handleFiles s files s w)) = newItems ++ filteredItems s.
Proof.
  intros Ht Hq. exists (fst (newItemsOf (currentFolder s) files w)).
  destruct (newItemsOf_spec (currentFolder s) files w) as [Hmap Hnew].
  split; [exact Hmap|].
  destruct (handleFiles_frame s files s w) as [_ Hc].
  assert (Hf : typeFilter (fst (handleFiles s files s w)) = typeFilter s /\
               searchQuery (fst (handleFiles s files s w)) = searchQuery s).
  { unfold handleFiles. rewrite bind_run. now split. }
  destruct Hf as [Ht' Hq'].
  unfold filteredItems. rewrite handleFiles_mediaItems.
  rewrite (filter_ext _ _ (fun item => matches_same s _ item Hc Ht' Hq')).
  rewrite filter_app. f_equal. apply filter_all.
  eapply Forall_impl; [|exact Hnew]. intros item Hitem. simpl in Hitem.
  rewrite (matches_unfiltered s item Ht Hq), Hitem. apply String.eqb_refl.
Qed.

Lemma upload_shows_in_grid_witness :
  exists newItems,
    map file newItems = [photo; clip] /\
    filteredItems (fst (handleFiles initial [photo; report; clip] initial careful)) =
    newItems ++ [].
Proof.
  apply (upload_shows_in_grid [photo; report; clip] initial careful); reflexivity.
Defined.

Lemma count_one (fs : list string) (x : string) :
  NoDup fs -> In x fs ->
  list_sum (map (fun f => if String.eqb x f then 1 else 0) fs) = 1.
Proof.
  induction 1 as [|f fs Hf Hd IH]; simpl; [tauto|].
  intros [->|Hin].
  - rewrite String.eqb_refl.
    assert (H0 : list_sum (map (fun f => if String.eqb x f then 1 else 0) fs) = 0).
    { clear IH Hd. induction fs as [|g fs IH]; simpl; [reflexivity|].
      destruct (String.eqb x g) eqn:E.
      - apply String.eqb_eq in E. subst. elim Hf. now left.
      - apply IH. intro H. apply Hf. now right. }
    now rewrite H0.
  - destruct (String.eqb x f) eqn:E.
    + apply String.eqb_eq in E. subst. contradiction.
    + now apply IH.
Qed.

Lemma list_sum_plus {A} (g h : A -> nat) (l : list A) :
  list_sum (map (fun a => g a + h a) l) = list_sum (map g l) + list_sum (map h l).
Proof. induction l as [|a l IH]; simpl; [reflexivity|]. rewrite IH. lia. Qed.

Lemma counts_add_up (fs : list string) (items : list MediaItem) :
  NoDup fs -> Forall (fun item => In (folder item) fs) items ->
  list_sum (map (fun f => length (filter (fun i => String.eqb (folder i) f) items)) fs) =
  length items.
Proof.
  intros Hd. induction 1 as [|a items Ha _ IH]; simpl.
  - induction fs; simpl; auto. inversion Hd; auto.
  - change (S (length items)) with (1 + length items).
    rewrite <- IH, <- (count_one fs (folder a) Hd Ha), <- list_sum_plus.
    f_equal. apply map_ext. intro f. now destruct (String.eqb (folder a) f).
Qed.

(** Whatever has happened since the application started, the counts shown
    beside the folders add up to the number of items: every item is counted
    under exactly one folder. *)
Theorem folder_counts_add_up {B : StringBuiltins} (evs : list Event) (w : World) :
  let s := app (fst (run evs start w)) in
  list_sum (map (folderCount s) (folders s)) = length (mediaItems s).
Proof.
  intro s. destruct (Inv_run evs start w Inv_start) as (Hd & [_ Hitems] & _).
  unfold folderCount. now apply counts_add_up.
Qed.

(** ** Ids

    The ids of the items are the uuids the host hands out.  When the host
    never hands out the same uuid twice, no two items ever share an id. *)

Lemma newItemsOf_ids (cf : string) (files : list File) (w : World) :
  let w' := snd (newItemsOf cf files w) in
  exists ks,
    map id (fst (newItemsOf cf files w)) = map (uuid_at w) ks /\
    NoDup ks /\
    Forall (fun k => tick w <= k < tick w') ks /\
    uuid_at w' = uuid_at w /\ tick w <= tick w'.
Proof.
  revert w; induction files as [|f rest IH]; intro w; simpl.
  - exists []. repeat split; auto; constructor.
  - destruct (getFileType f) as [ty|]; [|apply IH].
    rewrite !bind_run. unfold ret. simpl.
    destruct (IH (next_tick (next_tick (next_tick w)))) as (ks & Hids & Hnd & Hks & Hu & Ht).
    simpl in *. exists (S (tick w) :: ks). repeat split.
    + now rewrite Hids.
    + constructor; [|exact Hnd]. intro Hin.
      rewrite Forall_forall in Hks. specialize (Hks _ Hin). lia.
    + constructor; [lia|]. eapply Forall_impl; [|exact Hks]. simpl. intros k Hk. lia.
    + exact Hu.
    + lia.
Qed.

Lemma mapM_overwriteItem_host (originalId u : string) (f : File) (n : string)
    (l : list MediaItem) (w : World) :
  uuid_at (snd (mapM (overwriteItem originalId u f n) l w)) = uuid_at w /\
  tick w <= tick (snd (mapM (overwriteItem originalId u f n) l w)).
Proof.
  revert w; induction l as [|a l IH]; intro w; simpl; [auto|].
  rewrite !bind_run. unfold ret at 1. simpl snd.
  destruct (IH (snd (overwriteItem originalId u f n a w))) as [Hu Ht].
  rewrite Hu. rewrite overwriteItem_run in *.
  destruct (String.eqb (id a) originalId); simpl in *; split; auto; lia.
Qed.

Lemma handleAction_host {B : StringBuiltins}
    (item : MediaItem) (customPrompt : option string) (m : Modal) (w : World) :
  uuid_at (snd (handleAction item customPrompt m w)) = uuid_at w /\
  tick (snd (handleAction item customPrompt m w)) = tick w.
Proof.
  unfold handleAction. destruct (negb _); [now split|]. cbv beta zeta.
  rewrite bind_run.
  assert (H : uuid_at (snd (actionBody item (or_else customPrompt (prompt m))
                              (setStatus PROCESSING m) w)) = uuid_at w /\
              tick (snd (actionBody item (or_else customPrompt (prompt m))
                           (setStatus PROCESSING m) w)) = tick w).
  { unfold actionBody, await. destruct (type item); rewrite bind_run.
    - rewrite editImageWithGemini_run.
      destruct (readAsDataURL w (file item)); simpl; [now split|].
      destruct (match generateContent_at w (calls w) _ with inl _ => _ | inr _ => _ end);
        now split.
    - rewrite analyzeVideoWithGemini_run.
      destruct (readAsDataURL w (file item)); simpl; [now split|].
      destruct (match generateContent_at w (calls w) _ with inl _ => _ | inr _ => _ end);
        now split. }
  now destruct (fst (actionBody _ _ _ w)).
Qed.

Lemma resume_new_ids {B : StringBuiltins} (t : Task) (x : Sys) (w : World) :
  let w' := snd (resume t x w) in
  exists ks,
    map id (mediaItems (app (fst (resume t x w)))) =
      map (uuid_at w) ks ++ map id (mediaItems (app x)) /\
    NoDup ks /\
    Forall (fun k => tick w <= k < tick w') ks /\
    uuid_at w' = uuid_at w /\ tick w <= tick w'.
Proof.
  destruct t as [c files|c originalId base64Url n mode|c item customPrompt m];
    unfold resume; rewrite bind_run; unfold ret; simpl fst; simpl snd.
  - simpl. rewrite handleFiles_mediaItems, map_app.
    unfold handleFiles. rewrite bind_run. simpl snd.
    destruct (newItemsOf_ids (currentFolder c) files w) as (ks & Hids & H).
    exists ks. now rewrite Hids.
  - simpl. destruct (fetch_blob w base64Url) as [e|blob] eqn:Hblob.
    + rewrite (handleSaveGenerated_failed _ _ _ _ _ _ _ _ Hblob). simpl.
      exists []. repeat split; auto; constructor.
    + destruct mode.
      * unfold handleSaveGenerated. rewrite bind_run. unfold base64ToBlob at 1 2. simpl.
        rewrite Hblob. rewrite !bind_run. unfold ret. simpl.
        exists [S (tick w)].
        split; [reflexivity|]. split; [repeat constructor; intros []|].
        split; [repeat constructor; lia|]. split; [reflexivity | lia].
      * exists []. simpl.
        rewrite (handleSaveGenerated_overwrite_items _ _ _ _ _ _ _ Hblob).
        unfold handleSaveGenerated. rewrite bind_run. unfold base64ToBlob at 1. simpl.
        rewrite Hblob. unfold setMediaItemsM. rewrite !bind_run. unfold ret. simpl.
        destruct (mapM_overwriteItem_host originalId (objectURL_at w (tick w))
                    (pngFile blob n) n (mediaItems (app x)) (next_tick w)) as [Hu Ht].
        simpl in Hu, Ht. repeat split; auto; try constructor; try lia.
        apply map_id_Forall2. eapply Forall2_impl; [|apply mapM_overwriteItem].
        intros it it' Hi. simpl in Hi.
        destruct (String.eqb (id it) originalId); [|now subst].
        now destruct Hi as [k ->].
  - exists []. simpl.
    destruct (handleAction_host item customPrompt m w) as [Hu Ht].
    repeat split; auto; try constructor; try lia.
    apply fold_perform_ids, handleAction_safe.
Qed.

Lemma step_new_ids {B : StringBuiltins} (e : Event) (x : Sys) (w : World) :
  let w' := snd (step e x w) in
  exists ks,
    map id (mediaItems (app (fst (step e x w)))) =
      map (uuid_at w) ks ++ map id (mediaItems (app x)) /\
    NoDup ks /\
    Forall (fun k => tick w <= k < tick w') ks /\
    uuid_at w' = uuid_at w /\ tick w <= tick w'.
Proof.
  assert (Hsame : forall y : Sys,
            map id (mediaItems (app y)) = map id (mediaItems (app x)) ->
            exists ks,
              map id (mediaItems (app y)) = map (uuid_at w) ks ++ map id (mediaItems (app x)) /\
              NoDup ks /\ Forall (fun k => tick w <= k < tick w) ks /\
              uuid_at w = uuid_at w /\ tick w <= tick w).
  { intros y Hy. exists []. repeat split; auto; constructor. }
  destruct e; simpl;
    try (apply (Hsame x); reflexivity);
    try (apply (Hsame (onApp _ x)); reflexivity).
  - apply (Hsame (onApp (handleDrag ty) x)). simpl. unfold handleDrag.
    destruct (_ || _); [reflexivity|]. now destruct (String.eqb ty "dragleave").
  - apply (Hsame (whenFiles (app x) files (onApp (setDragActive false) x))).
    now destruct files.
  - apply (Hsame (whenFiles (app x) files x)). now destruct files.
  - destruct (nth_error (folders (app x)) n); [|apply (Hsame x); reflexivity].
    apply (Hsame (onApp _ x)). reflexivity.
  - destruct (truthy (newFolderInput (app x))); [apply (Hsame x); reflexivity|].
    apply (Hsame (onApp _ x)). reflexivity.
  - apply (Hsame (onApp addFolder x)). simpl. unfold addFolder. now destruct (_ && _).
  - destruct (nth_error (filteredItems (app x)) n); [|apply (Hsame x); reflexivity].
    apply (Hsame (onApp _ x)). reflexivity.
  - destruct (selectedItem (app x)) as [item|]; [|apply (Hsame x); reflexivity].
    apply (Hsame (fold_left _ _ x)). apply fold_perform_ids, handleRename_safe.
  - destruct (selectedItem (app x)) as [item|]; [|apply (Hsame x); reflexivity].
    destruct (nth_error (folders (app x)) n) as [value|]; [|apply (Hsame x); reflexivity].
    apply (Hsame (onApp (handleUpdateItem _ _ _) x)). simpl.
    now apply handleUpdateItem_ids.
  - destruct (selectedItem (app x)) as [item|]; [|apply (Hsame x); reflexivity].
    apply (Hsame (suspend _ x)). reflexivity.
  - destruct (selectedItem (app x)) as [item|]; [|apply (Hsame x); reflexivity].
    apply (Hsame (fold_left _ _ x)). apply fold_perform_ids, executeSave_safe.
  - destruct (nth_error (tasks x) n) as [t|]; [|apply (Hsame x); reflexivity].
    apply (resume_new_ids t {| app := app x; tasks := remove_nth n (tasks x) |} w).
Qed.

Lemma NoDup_map_uuid (g : nat -> string) (ks : list nat) :
  (forall j k, g j = g k -> j = k) -> NoDup ks -> NoDup (map g ks).
Proof.
  intros Hinj. induction 1 as [|k ks Hk _ IH]; simpl; constructor; [|exact IH].
  intro Hin. apply in_map_iff in Hin as (j & Hj & Hjin).
  apply Hinj in Hj. now subst.
Qed.

Lemma fresh_step (w w' : World) (l : list string) (ks : list nat) :
  (forall j k, uuid_at w j = uuid_at w k -> j = k) ->
  NoDup l -> (forall k, tick w <= k -> ~ In (uuid_at w k) l) ->
  NoDup ks -> Forall (fun k => tick w <= k < tick w') ks ->
  tick w <= tick w' ->
  NoDup (map (uuid_at w) ks ++ l) /\
  (forall k, tick w' <= k -> ~ In (uuid_at w k) (map (uuid_at w) ks ++ l)).
Proof.
  intros Hinj Hl Hfresh Hks Hrange Hle. rewrite Forall_forall in Hrange. split.
  - apply NoDup_app; [now apply NoDup_map_uuid | exact Hl |].
    intros a Ha Hal. apply in_map_iff in Ha as (k & <- & Hk).
    apply (Hfresh k); [apply Hrange in Hk; lia | exact Hal].
  - intros k Hk Hin. apply in_app_or in Hin as [Hin|Hin].
    + apply in_map_iff in Hin as (j & Hj & Hjin). apply Hinj in Hj. subst j.
      apply Hrange in Hjin. lia.
    + apply (Hfresh k); [lia | exact Hin].
Qed.

Lemma run_keeps_ids_fresh {B : StringBuiltins} (evs : list Event) (x : Sys) (w : World) :
  (forall j k, uuid_at w j = uuid_at w k -> j = k) ->
  NoDup (map id (mediaItems (app x))) ->
  (forall k, tick w <= k -> ~ In (uuid_at w k) (map id (mediaItems (app x)))) ->
  NoDup (map id (mediaItems (app (fst (run evs x w))))).
Proof.
  revert x w; induction evs as [|e evs IH]; intros x w Hinj Hnd Hfresh; simpl; [exact Hnd|].
  rewrite bind_run.
  destruct (step_new_ids e x w) as (ks & Hids & Hks & Hrange & Hu & Ht).
  destruct (fresh_step w (snd (step e x w)) _ ks Hinj Hnd Hfresh Hks Hrange Ht) as [H1 H2].
  apply IH; rewrite ?Hu, ?Hids; auto.
Qed.

(** If the host never gives the same uuid twice, and the uuids it still has
    to give are not ids of items already, then after any sequence of events
    (uploads, saves, renames, moves, in any interleaving) no two items of
    [mediaItems] have the same id. *)
Theorem ids_stay_unique {B : StringBuiltins} (evs : list Event) (x : Sys) (w : World) :
  (forall j k, uuid_at w j = uuid_at w k -> j = k) ->
  NoDup (map id (mediaItems (app x))) ->
  (forall k, tick w <= k -> ~ In (uuid_at w k) (map id (mediaItems (app x)))) ->
  NoDup (map id (mediaItems (app (fst (run evs x w))))).
Proof. apply run_keeps_ids_fresh. Qed.

Lemma letters_length (n : nat) : String.length (letters n) = n.
Proof. induction n; simpl; congruence. Qed.

Lemma ids_stay_unique_witness :
  NoDup (map id (mediaItems (app (fst (run [EvDrop [photo; clip]; EvResume 0;
                                            EvDrop [photo]; EvResume 0]
                                         start careful))))).
Proof.
  apply (ids_stay_unique _ start careful).
  - intros j k H. simpl in H.
    rewrite <- (letters_length j), <- (letters_length k). now rewrite H.
  - constructor.
  - intros k _ [].
Defined.

(** ** The selected item *)

Lemma perform_selected (c : App) (x : Sys) (e : Effect) (sel' : MediaItem) :
  safeEffect (folders (app x)) e ->
  selectedItem (app (perform c x e)) = Some sel' ->
  exists sel, selectedItem (app x) = Some sel /\ id sel' = id sel.
Proof.
  destruct e as [id0 updates| |]; simpl; try (intros _ H; now exists sel').
  intros [Hid _]. unfold handleUpdateItem.
  destruct (selectedItem c) as [csel|]; [|intro H; now exists sel'].
  destruct (String.eqb (id csel) id0); [|intro H; now exists sel'].
  simpl. destruct (selectedItem (app x)) as [p|]; [|discriminate].
  intro H. injection H as <-. exists p. split; [reflexivity|].
  unfold spread. simpl. now rewrite Hid.
Qed.

Lemma fold_perform_selected (c : App) (effects : list Effect) (x : Sys) (sel' : MediaItem) :
  Forall (safeEffect (folders (app x))) effects ->
  selectedItem (app (fold_left (perform c) effects x)) = Some sel' ->
  exists sel, selectedItem (app x) = Some sel /\ id sel' = id sel.
Proof.
  revert x; induction effects as [|e effects IH]; intros x Hsafe H; simpl in H.
  - now exists sel'.
  - inversion Hsafe; subst.
    apply IH in H; [|now rewrite perform_folders].
    destruct H as (sel1 & H1 & E1).
    destruct (perform_selected c x e sel1) as (sel & H0 & E0); auto.
    exists sel. split; [exact H0 | congruence].
Qed.

Lemma resume_selected {B : StringBuiltins} (t : Task) (x : Sys) (w : World) (sel' : MediaItem) :
  selectedItem (app (fst (resume t x w))) = Some sel' ->
  exists sel, selectedItem (app x) = Some sel /\ id sel' = id sel.
Proof.
  destruct t as [c files|c originalId base64Url n mode|c item customPrompt m];
    unfold resume; rewrite bind_run; unfold ret; simpl fst.
  - simpl. unfold handleFiles. rewrite bind_run. simpl. intro H. now exists sel'.
  - simpl. destruct (fetch_blob w base64Url) as [e|blob] eqn:Hblob.
    + rewrite (handleSaveGenerated_failed _ _ _ _ _ _ _ _ Hblob). intro H. now exists sel'.
    + destruct mode.
      * unfold handleSaveGenerated. rewrite bind_run. unfold base64ToBlob at 1. simpl.
        rewrite Hblob. rewrite !bind_run. unfold ret. simpl. intro H. now exists sel'.
      * rewrite (handleSaveGenerated_overwrite_run _ _ _ _ _ _ _ Hblob). simpl.
        destruct (selectedItem (app x)) as [p|]; [|discriminate].
        intro H. injection H as <-. now exists p.
  - apply fold_perform_selected, handleAction_safe.
Qed.

Lemma step_selected {B : StringBuiltins} (e : Event) (x : Sys) (w : World) (sel' : MediaItem) :
  selectedItem (app (fst (step e x w))) = Some sel' ->
  (exists sel, selectedItem (app x) = Some sel /\ id sel' = id sel) \/
  In sel' (mediaItems (app x)).
Proof.
  assert (Hkeep : forall y : Sys,
            selectedItem (app y) = selectedItem (app x) ->
            selectedItem (app y) = Some sel' ->
            (exists sel, selectedItem (app x) = Some sel /\ id sel' = id sel) \/
            In sel' (mediaItems (app x))).
  { intros y Hy H. left. exists sel'. split; [congruence | reflexivity]. }
  assert (Hsafe : forall c effects,
            Forall (safeEffect (folders (app x))) effects ->
            selectedItem (app (fold_left (perform c) effects x)) = Some sel' ->
            (exists sel, selectedItem (app x) = Some sel /\ id sel' = id sel) \/
            In sel' (mediaItems (app x))).
  { intros c effects Hs H. left. now apply (fold_perform_selected c effects). }
  destruct e; simpl.
  - apply (Hkeep (onApp (handleDrag ty) x)). simpl. unfold handleDrag.
    destruct (_ || _); [reflexivity|]. now destruct (String.eqb ty "dragleave").
  - apply (Hkeep (whenFiles (app x) files (onApp (setDragActive false) x))).
    now destruct files.
  - apply (Hkeep (whenFiles (app x) files x)). now destruct files.
  - destruct (nth_error (folders (app x)) n); [|now apply (Hkeep x)].
    now apply (Hkeep (onApp (setCurrentFolder _) x)).
  - now apply (Hkeep (onApp (setSearchQuery q) x)).
  - now apply (Hkeep (onApp (setTypeFilter t) x)).
  - now apply (Hkeep (onApp (setShowNewFolderInput true) x)).
  - now apply (Hkeep (onApp (setNewFolderInput v) x)).
  - destruct (truthy (newFolderInput (app x))); [now apply (Hkeep x)|].
    now apply (Hkeep (onApp (setShowNewFolderInput false) x)).
  - apply (Hkeep (onApp addFolder x)). simpl. unfold addFolder. now destruct (_ && _).
  - destruct (nth_error (filteredItems (app x)) n) as [item|] eqn:Hn;
      [|now apply (Hkeep x)].
    simpl. intro H. injection H as <-. right.
    apply nth_error_In in Hn. unfold filteredItems in Hn.
    now apply filter_In in Hn.
  - discriminate.
  - destruct (selectedItem (app x)) as [item|] eqn:Hsel;
      [|simpl; rewrite ?Hsel; discriminate].
    apply Hsafe, handleRename_safe.
  - destruct (selectedItem (app x)) as [item|] eqn:Hsel;
      [|simpl; rewrite ?Hsel; discriminate].
    destruct (nth_error (folders (app x)) n) as [value|] eqn:Hn; [|now apply (Hkeep x)].
    apply (Hsafe (app x) [OnUpdateItem (id item) (justFolder value)]).
    repeat constructor. simpl. now apply nth_error_In in Hn.
  - destruct (selectedItem (app x)) as [item|] eqn:Hsel;
      [|simpl; rewrite ?Hsel; discriminate].
    now apply (Hkeep (suspend (TAction (app x) item customPrompt m) x)).
  - destruct (selectedItem (app x)) as [item|] eqn:Hsel;
      [|simpl; rewrite ?Hsel; discriminate].
    apply Hsafe, executeSave_safe.
  - destruct (nth_error (tasks x) n) as [t|]; [|now apply (Hkeep x)].
    intro H. left.
    now apply (resume_selected t {| app := app x; tasks := remove_nth n (tasks x) |} w).
Qed.

Lemma run_selected {B : StringBuiltins} (evs : list Event) (x : Sys) (w : World) :
  (forall sel, selectedItem (app x) = Some sel -> In (id sel) (map id (mediaItems (app x)))) ->
  forall sel, selectedItem (app (fst (run evs x w))) = Some sel ->
              In (id sel) (map id (mediaItems (app (fst (run evs x w))))).
Proof.
  revert x w; induction evs as [|e evs IH]; intros x w Hx; simpl; [exact Hx|].
  rewrite bind_run. apply IH. intros sel' Hsel'.
  destruct (step_ids e x w) as [added ->]. apply in_or_app. right.
  destruct (step_selected e x w sel' Hsel') as [(sel & Hsel & ->)|Hin].
  - now apply Hx.
  - now apply in_map.
Qed.

(** Whatever has happened since the application started, the item the modal
    shows has the id of an item of [mediaItems]: the modal is never open on
    something the gallery does not have. *)
Theorem selected_item_is_in_gallery {B : StringBuiltins} (evs : list Event) (w : World) :
  let s := app (fst (run evs start w)) in
  forall sel, selectedItem s = Some sel -> In (id sel) (map id (mediaItems s)).
Proof.
  intro s. apply run_selected. discriminate.
Qed.

Lemma selected_item_is_in_gallery_witness :
  let evs := [EvDrop [photo]; EvResume 0; EvOpen 0;
              EvRename (setTempName "dog.jpg" freshModal)] in
  let s := app (fst (run evs start careful)) in
  exists sel, selectedItem s = Some sel /\ In (id sel) (map id (mediaItems s)).
Proof.
  intros evs s. eexists. split; [reflexivity|].
  apply (selected_item_is_in_gallery evs careful). reflexivity.
Defined.

(** ** Dropping and picking files *)

Lemma nth_error_last {A} (l : list A) (a : A) : nth_error (l ++ [a]) (length l) = Some a.
Proof. induction l; simpl; auto. Qed.

Lemma remove_nth_last {A} (l : list A) (a : A) : remove_nth (length l) (l ++ [a]) = l.
Proof. induction l; simpl; auto. now f_equal. Qed.

(** [getFileType] goes by the start of the MIME type alone: 'image' for
    [image/...], 'video' for [video/...], [null] for anything else, the empty
    type included; the test is case-sensitive. *)
Theorem getFileType_by_prefix (f : File) :
  (getFileType f = Some image <-> exists rest, file_type f = ("image/" ++ rest)%string) /\
  (getFileType f = Some video <-> exists rest, file_type f = ("video/" ++ rest)%string) /\
  (getFileType f = None <->
   ~ (exists rest, file_type f = ("image/" ++ rest)%string) /\
   ~ (exists rest, file_type f = ("video/" ++ rest)%string)).
Proof.
  unfold getFileType, startsWith.
  pose proof (prefix_iff "image/" (file_type f)) as Hi.
  pose proof (prefix_iff "video/" (file_type f)) as Hv.
  destruct (String.prefix "image/" (file_type f)) eqn:Ei.
  - assert (Hex : exists rest, file_type f = ("image/" ++ rest)%string) by now apply Hi.
    repeat split; try discriminate; auto.
    + intros [rest H]. destruct Hex as [rest' H']. rewrite H in H'. discriminate H'.
    + intros [H _]. contradiction.
  - assert (Hno : ~ exists rest, file_type f = ("image/" ++ rest)%string).
    { intro H. apply Hi in H. discriminate. }
    destruct (String.prefix "video/" (file_type f)) eqn:Ev.
    + assert (Hex : exists rest, file_type f = ("video/" ++ rest)%string) by now apply Hv.
      repeat split; try discriminate; auto.
      * intro H. contradiction.
      * intros [_ H]. contradiction.
    + assert (Hno' : ~ exists rest, file_type f = ("video/" ++ rest)%string).
      { intro H. apply Hv in H. discriminate. }
      repeat split; try discriminate; auto; intro H; contradiction.
Qed.

(** A drop always ends the drag highlight; a drop or a pick of no file does
    nothing more.  With at least one file, the upload is announced at once
    and, when it goes on, the spinner stops and one item is added in front
    for each image or video, in the folder that was current at the drop, the
    list of suspended handlers being what it was before. *)
Theorem drop_then_completion {B : StringBuiltins} (files : list File) (x : Sys) (w : World) :
  step (EvDrop files) x w = (handleDrop files x, w) /\
  step (EvChange files) x w = (handleChange files x, w) /\
  dragActive (app (handleDrop files x)) = false /\
  handleDrop [] x = onApp (setDragActive false) x /\
  handleChange [] x = x /\
  (files <> [] ->
   let x1 := handleDrop files x in
   let x2 := fst (step (EvResume (length (tasks x))) x1 w) in
   isUploading (app x1) = true /\
   mediaItems (app x1) = mediaItems (app x) /\
   isUploading (app x2) = false /\
   tasks x2 = tasks x /\
   exists newItems,
     mediaItems (app x2) = newItems ++ mediaItems (app x) /\
     map file newItems = filter isMedia files /\
     Forall (fun item => folder item = currentFolder (app x)) newItems).
Proof.
  split; [reflexivity|]. split; [reflexivity|].
  split; [now destruct files|]. split; [reflexivity|]. split; [now destruct x|].
  intros Hne x1 x2. destruct files as [|f files]; [now elim Hne|].
  subst x1 x2. unfold handleDrop, whenFiles, callHandleFiles. simpl.
  rewrite nth_error_last, remove_nth_last. unfold resume.
  rewrite bind_run. unfold ret. simpl. unfold handleFiles. rewrite bind_run. simpl.
  repeat split.
  destruct (newItemsOf_spec (currentFolder (app x)) (f :: files) w) as [Hmap Hnew].
  exists (fst (newItemsOf (currentFolder (app x)) (f :: files) w)). repeat split; auto.
Qed.

Lemma drop_then_completion_witness :
  let x1 := handleDrop [report; photo] start in
  let x2 := fst (step (EvResume 0) x1 careful) in
  isUploading (app x1) = true /\ isUploading (app x2) = false /\
  exists newItems, mediaItems (app x2) = newItems ++ [] /\ map file newItems = [photo].
Proof.
  intros x1 x2.
  destruct (drop_then_completion [report; photo] start careful)
    as (_ & _ & _ & _ & _ & H).
  destruct H as (H1 & _ & H2 & _ & newItems & H3 & H4 & _); [discriminate|].
  split; [exact H1|]. split; [exact H2|]. exists newItems. split; [exact H3 | exact H4].
Defined.

Lemma remove_nth_before_last {A} (l : list A) (a b : A) :
  remove_nth (length l) ((l ++ [a]) ++ [b]) = l ++ [b].
Proof. induction l; simpl; auto. now f_equal. Qed.

Lemma nth_error_before_last {A} (l : list A) (a b : A) :
  nth_error ((l ++ [a]) ++ [b]) (length l) = Some a.
Proof. induction l; simpl; auto. Qed.

(** [isUploading] does not count the uploads under way.  While an upload,
    started by a pick or by a drop, is suspended, the file input is not
    rendered but the drop zone still takes a drop; when a second upload has
    been started that way and the first one finishes, the spinner stops
    although the second is still suspended. *)
Theorem spinner_stops_at_first_upload {B : StringBuiltins}
    (picked : bool) (files1 files2 : list File) (x : Sys) (w : World) :
  files1 <> [] -> files2 <> [] ->
  let x1 := if picked then handleChange files1 x else handleDrop files1 x in
  let x2 := handleDrop files2 x1 in
  let x3 := fst (step (EvResume (length (tasks x))) x2 w) in
  isUploading (app x1) = true /\
  isUploading (app x2) = true /\
  isUploading (app x3) = false /\
  tasks x3 = tasks x ++ [TFiles (app x1) files2].
Proof.
  intros H1 H2 x1 x2 x3.
  destruct files1 as [|f1 files1]; [now elim H1|].
  destruct files2 as [|f2 files2]; [now elim H2|].
  subst x3 x2 x1.
  destruct picked; unfold handleChange, handleDrop, whenFiles, callHandleFiles; simpl;
    (split; [reflexivity|]); (split; [reflexivity|]);
    rewrite nth_error_before_last, remove_nth_before_last;
    unfold resume; rewrite bind_run; unfold ret; simpl;
    unfold handleFiles; rewrite bind_run; simpl; split; reflexivity.
Qed.

Lemma spinner_stops_at_first_upload_witness :
  let x2 := handleDrop [clip] (handleChange [photo] start) in
  let x3 := fst (step (EvResume 0) x2 careful) in
  isUploading (app x3) = false /\ length (tasks x3) = 1.
Proof.
  intros x2 x3.
  destruct (spinner_stops_at_first_upload true [photo] [clip] start careful)
    as (_ & _ & H & Ht); try discriminate.
  split; [exact H | exact (f_equal (@length Task) Ht)].
Defined.

(** ** A new folder *)

(** Adding a folder does not select it and touches no item; it clears and
    hides the input; the new folder is the last button of the sidebar, and a
    click on it makes it the current folder. *)
Theorem addFolder_then_select {B : StringBuiltins} (x : Sys) (w : World) :
  let t := trim (newFolderInput (app x)) in
  t <> EmptyString -> ~ In t (folders (app x)) ->
  let x1 := fst (step EvAddFolder x w) in
  let x2 := fst (step (EvFolder (length (folders (app x)))) x1 w) in
  currentFolder (app x1) = currentFolder (app x) /\
  mediaItems (app x1) = mediaItems (app x) /\
  selectedItem (app x1) = selectedItem (app x) /\
  newFolderInput (app x1) = EmptyString /\
  showNewFolderInput (app x1) = false /\
  currentFolder (app x2) = t /\
  mediaItems (app x2) = mediaItems (app x).
Proof.
  intros t Hne Hnotin x1 x2. subst x1 x2. simpl.
  destruct (addFolder_cases (app x)) as [(_ & _ & E)|([H|H] & _)];
    [|contradiction..].
  rewrite !E. simpl. fold t. rewrite nth_error_last. simpl. rewrite ?E. repeat split.
Qed.

Lemma addFolder_then_select_witness :
  let x := onApp (setNewFolderInput " Aile ") start in
  currentFolder (app (fst (step (EvFolder 4) (fst (step EvAddFolder x careful)) careful))) =
  "Aile".
Proof.
  intro x.
  destruct (addFolder_then_select x careful) as (_ & _ & _ & _ & _ & H & _).
  - discriminate.
  - simpl. intuition discriminate.
  - exact H.
Defined.

(** ** From the modal to the gallery *)

(** Choosing a folder in the modal's select moves every item with the id of
    the modal's item to that folder, leaving the other items alone, and the
    modal stays open on the item, now in the chosen folder; a choice beyond
    the options changes nothing. *)
Theorem folder_change_updates_list_and_modal {B : StringBuiltins}
    (m : Modal) (n : nat) (x : Sys) (w : World) (item : MediaItem) :
  selectedItem (app x) = Some item ->
  let x' := fst (step (EvFolderChange m n) x w) in
  match nth_error (folders (app x)) n with
  | Some value =>
      mediaItems (app x') =
        map (fun it => if String.eqb (id it) (id item)
                       then spread it (justFolder value) else it)
          (mediaItems (app x)) /\
      (forall it, In it (mediaItems (app x')) -> id it = id item -> folder it = value) /\
      selectedItem (app x') = Some (spread item (justFolder value)) /\
      folder (spread item (justFolder value)) = value /\
      id (spread item (justFolder value)) = id item /\
      tasks x' = tasks x
  | None => x' = x
  end.
Proof.
  intros Hsel x'. subst x'. simpl. rewrite Hsel.
  destruct (nth_error (folders (app x)) n) as [value|]; [|reflexivity].
  simpl. rewrite handleUpdateItem_mediaItems. repeat split.
  - intros it Hin Hid. apply in_map_iff in Hin as (it0 & Hit & _).
    destruct (String.eqb (id it0) (id item)) eqn:E.
    + now subst it.
    + subst it. apply String.eqb_neq in E. contradiction.
  - unfold handleUpdateItem. rewrite Hsel, String.eqb_refl. simpl. now rewrite Hsel.
Qed.

Lemma folder_change_updates_list_and_modal_witness :
  let x := {| app := withItems [movie] (Some movie); tasks := [] |} in
  map folder (mediaItems (app (fst (step (EvFolderChange freshModal 3) x careful)))) =
  ["Tatil"].
Proof.
  intro x.
  pose proof (folder_change_updates_list_and_modal freshModal 3 x careful movie eq_refl) as H.
  change (nth_error (folders (app x)) 3) with (Some "Tatil") in H.
  cbv beta iota zeta in H. destruct H as [H _].
  refine (eq_trans (f_equal (map folder) H) _). reflexivity.
Defined.

(** 'Save as new', from the click to the end: the click changes nothing in
    the gallery; when the save goes on and the image is fetched, one item
    named by the save name is put in front, an image flagged as generated,
    in the folder the list had for the original when the button was
    clicked; the modal stays open on the original. *)
Theorem save_as_new_end_to_end {B : StringBuiltins}
    (m : Modal) (x : Sys) (w : World) (item : MediaItem) (g : string) (blob : Blob) :
  selectedItem (app x) = Some item ->
  generatedImageUrl m = Some g -> g <> EmptyString ->
  trim (saveName m) <> EmptyString ->
  fetch_blob w g = inr blob ->
  let x1 := fst (step (EvExecuteSave m new) x w) in
  let x2 := fst (step (EvResume (length (tasks x))) x1 w) in
  app x1 = app x /\
  tasks x2 = tasks x /\
  selectedItem (app x2) = Some item /\
  exists newItem,
    mediaItems (app x2) = newItem :: mediaItems (app x) /\
    name newItem = saveName m /\ type newItem = image /\
    isGenerated newItem = Some true /\
    file_name (file newItem) = (saveName m ++ ".png")%string /\
    folder newItem = match findItem (id item) (mediaItems (app x)) with
                     | Some o => folder o
                     | None => currentFolder (app x)
                     end.
Proof.
  intros Hsel Hg Hne Hn Hblob x1 x2.
  assert (E : snd (executeSave item new m) =
              [OnSaveGenerated (id item) g (saveName m) new;
               Alert "Yeni görsel galeriye eklendi!"]).
  { destruct (executeSave_cases item new m) as [(g' & Hg' & _ & _ & ->)|(Hno & _)].
    - simpl. congruence.
    - elim Hno. now exists g. }
  assert (H1 : x1 = suspend (TSave (app x) (id item) g (saveName m) new) x).
  { subst x1. simpl. rewrite Hsel. simpl. now rewrite E. }
  subst x2. rewrite H1. split; [reflexivity|]. simpl.
  rewrite nth_error_last, remove_nth_last. unfold resume.
  rewrite bind_run. unfold ret. simpl.
  unfold handleSaveGenerated. rewrite bind_run. unfold base64ToBlob at 1 2 3. simpl.
  rewrite Hblob. rewrite !bind_run. unfold ret. simpl.
  split; [reflexivity|]. split; [exact Hsel|].
  eexists. split; [reflexivity|]. simpl. repeat split.
Qed.

Lemma save_as_new_end_to_end_witness :
  let a := itemOf "a" image photo "Tatil" in
  let x := {| app := withItems [a] (Some a); tasks := [] |} in
  let m := setGeneratedImageUrl (Some "data:image/png;base64,QUJD") (mountModal a) in
  let x2 := fst (step (EvResume 0) (fst (step (EvExecuteSave m new) x careful)) careful) in
  exists newItem,
    mediaItems (app x2) = [newItem; a] /\
    name newItem = "Edited-cat.jpg" /\ folder newItem = "Tatil".
Proof.
  intros a x m x2.
  destruct (save_as_new_end_to_end m x careful a "data:image/png;base64,QUJD"
              {| blob_type := "image/png"; blob_bytes := "data:image/png;base64,QUJD" |})
    as (_ & _ & _ & newItem & H1 & H2 & _ & _ & _ & H3);
    try reflexivity; try discriminate.
  exists newItem. split; [exact H1|]. split; [exact H2 | exact H3].
Defined.
